(** * bkdetect: similarity-search engine

    A shallow embedding of the source-attribution engine
    ([documents.py], [text_pipeline.py], [indexing.py],
    [source_finder.py]) together with the properties its
    specification states about it.

    Conventions of the embedding:
    - a Python [str] is the list of its Unicode code points;
    - a Python [int] is a [Z];
    - a similarity score (a finite IEEE double) is the rational number
      it denotes, so comparisons of scores are comparisons in [Q];
    - a [dict] is an association list kept in insertion order;
    - third-party code (BeautifulSoup, NLTK, scikit-learn, python-docx,
      the file system) is an interface the engine is parameterised by. *)

From Stdlib Require Import Ascii String.
From Stdlib Require Import List ZArith NArith QArith Bool Lia.
From Stdlib Require Import Permutation Sorted.
From Stdlib Require SpecFloat.
Import ListNotations.

Set Implicit Arguments.
Local Close Scope Q_scope.
Local Open Scope list_scope.

(** ** Python strings *)

Definition char := N.
Definition str := list char.

Definition str_eq_dec : forall a b : str, {a = b} + {a <> b} :=
  list_eq_dec N.eq_dec.

Definition str_eqb (a b : str) : bool :=
  if str_eq_dec a b then true else false.

(** Literals of the ASCII range, written as Rocq strings. *)
Definition lit (s : string) : str :=
  map N_of_ascii (list_ascii_of_string s).

Definition space : char := 32%N.

(** [bool(x)] for a sequence [x]. *)
Definition truthy {A} (l : list A) : bool :=
  match l with [] => false | _ :: _ => true end.

(** [sep.join(parts)] *)
Fixpoint join (sep : str) (parts : list str) : str :=
  match parts with
  | [] => []
  | x :: rest =>
      match rest with
      | [] => x
      | _ :: _ => x ++ sep ++ join sep rest
      end
  end.

(** [xs[:k]]: a negative bound counts from the end. *)
Definition slice_to {A} (xs : list A) (k : Z) : list A :=
  if (k <? 0)%Z
  then firstn (Z.to_nat (Z.of_nat (length xs) + k)) xs
  else firstn (Z.to_nat k) xs.

(** [sorted(xs, key=key, reverse=True)]: the stable sort by decreasing
    key; elements with equal keys keep their original order. *)
Fixpoint insert_desc {A} (key : A -> Q) (x : A) (xs : list A) : list A :=
  match xs with
  | [] => [x]
  | y :: ys =>
      if Qle_bool (key y) (key x) then x :: y :: ys
      else y :: insert_desc key x ys
  end.

Fixpoint sorted_desc {A} (key : A -> Q) (xs : list A) : list A :=
  match xs with
  | [] => []
  | x :: rest => insert_desc key x (sorted_desc key rest)
  end.

(** [c.isspace()] for one code point. *)
Definition isspace (c : char) : bool :=
  ((9 <=? c) && (c <=? 13) || (28 <=? c) && (c <=? 32)
   || (c =? 133) || (c =? 160) || (c =? 5760)
   || (8192 <=? c) && (c <=? 8202)
   || (c =? 8232) || (c =? 8233) || (c =? 8239) || (c =? 8287)
   || (c =? 12288))%N.

(** [s.split()]: the maximal runs of non-whitespace code points.
    [words s] is the run that starts at the head of [s] (empty when [s]
    starts with whitespace) and the runs after it. *)
Fixpoint words (s : str) : str * list str :=
  match s with
  | [] => ([], [])
  | c :: rest =>
      let (w, ws) := words rest in
      if isspace c then ([], if truthy w then w :: ws else ws)
      else (c :: w, ws)
  end.

Definition split (s : str) : list str :=
  let (w, ws) := words s in
  if truthy w then w :: ws else ws.

Fixpoint lstrip (s : str) : str :=
  match s with
  | [] => []
  | c :: rest => if isspace c then lstrip rest else s
  end.

Definition rstrip (s : str) : str := rev (lstrip (rev s)).

Definition strip (s : str) : str := rstrip (lstrip s).

(** [s.lower()].  Letters of the Latin and Cyrillic alphabets are
    mapped to their small forms; U+0130 and U+212A are the two other
    code points whose lower case contains a Latin letter. *)
Definition lower_char (c : char) : str :=
  (if (65 <=? c) && (c <=? 90) then [c + 32]
   else if (1040 <=? c) && (c <=? 1071) then [c + 32]
   else if (1024 <=? c) && (c <=? 1039) then [c + 80]
   else if c =? 304 then [105; 775]
   else if c =? 8490 then [107]
   else [c])%N.

Definition lower (s : str) : str := flat_map lower_char s.

(** Line boundaries of [s.splitlines()]. *)
Definition is_linebreak (c : char) : bool :=
  ((10 <=? c) && (c <=? 13) || (28 <=? c) && (c <=? 30)
   || (c =? 133) || (c =? 8232) || (c =? 8233))%N.

Fixpoint splitlines (s : str) : list str :=
  match s with
  | [] => []
  | c :: rest =>
      if is_linebreak c then
        match rest with
        | d :: rest' =>
            if ((c =? 13) && (d =? 10))%N then [] :: splitlines rest'
            else [] :: splitlines rest
        | [] => [[]]
        end
      else
        match splitlines rest with
        | [] => [[c]]
        | l :: ls => (c :: l) :: ls
        end
  end.

(** [enumerate(xs, start=start)] *)
Fixpoint enumerate {A} (start : Z) (xs : list A) : list (Z * A) :=
  match xs with
  | [] => []
  | x :: rest => (start, x) :: enumerate (start + 1) rest
  end.

(** ** documents.py *)

Definition Path := str.

(** Values stored in [Document.metadata]. *)
Inductive MetaValue :=
| MInt (z : Z)
| MStr (s : str)
| MList (l : list str)
| MNone.

Module Document.
Record t := mk {
  path : Path;
  text : str;
  metadata : list (str * MetaValue);
  tokens : list str
}.
End Document.

(** ** text_pipeline.py *)

(** What the pipeline takes from BeautifulSoup, NLTK and the stemmer
    package:
    [get_text s] is [BeautifulSoup(s, "html.parser").get_text(separator=" ")],
    [stopwords_words name] is [stopwords.words(name)],
    [russian_porter_stem] and [porter_stem] are the two stemmers. *)
Class Resources := {
  get_text : str -> str;
  stopwords_words : str -> list str;
  russian_porter_stem : str -> str;
  porter_stem : str -> str
}.

Module TextPipeline.

(** Code points that [_NON_ALPHANUMERIC_RE] does not match:
    [a-z0-9а-яё'], their capitals, and the small letters that
    IGNORECASE identifies with a letter of these ranges. *)
Definition is_word_char (c : char) : bool :=
  ((97 <=? c) && (c <=? 122) || (65 <=? c) && (c <=? 90)
   || (48 <=? c) && (c <=? 57)
   || (1072 <=? c) && (c <=? 1103) || (1040 <=? c) && (c <=? 1071)
   || (c =? 1105) || (c =? 1025) || (c =? 39)
   || (c =? 304) || (c =? 305) || (c =? 383) || (c =? 8490)
   || (7296 <=? c) && (c <=? 7302))%N.

(** [_NON_ALPHANUMERIC_RE.sub(" ", s)]: every maximal run of other
    code points becomes one space. *)
Fixpoint sub_non_alphanumeric (s : str) : str :=
  match s with
  | [] => []
  | c :: rest =>
      if is_word_char c then c :: sub_non_alphanumeric rest
      else
        match rest with
        | [] => [space]
        | d :: _ =>
            if is_word_char d then space :: sub_non_alphanumeric rest
            else sub_non_alphanumeric rest
        end
  end.

Record t := mk {
  language : str;
  use_stemming : bool;
  remove_stopwords : bool;
  stopword_set : list str;
  _stemmer : option (str -> str)
}.

Section WithResources.
Context {R : Resources}.

Definition _load_stopwords (language : str) : list str :=
  if str_eqb language (lit "ru") then stopwords_words (lit "russian")
  else if str_eqb language (lit "en") then stopwords_words (lit "english")
  else [].

Definition _resolve_stemmer (language : str) : str -> str :=
  if str_eqb language (lit "ru") then russian_porter_stem
  else if str_eqb language (lit "en") then porter_stem
  else fun token => token.

(** [__init__] *)
Definition init (language : str) (use_stemming remove_stopwords : bool)
  : t :=
  {| language := language;
     use_stemming := use_stemming;
     remove_stopwords := remove_stopwords;
     stopword_set :=
       if remove_stopwords then _load_stopwords language else [];
     _stemmer :=
       if use_stemming then Some (_resolve_stemmer language) else None |}.

Definition _normalize_text (text : str) : str :=
  let stripped := get_text text in
  let lowered := lower stripped in
  sub_non_alphanumeric lowered.

Definition _tokenize (text : str) : list str :=
  filter (fun token => truthy token) (split text).

Definition _filter_stopwords (self : t) (tokens : list str) : list str :=
  if negb (truthy (stopword_set self)) then tokens
  else filter (fun token =>
                 negb (existsb (str_eqb token) (stopword_set self)))
              tokens.

Definition _stem_tokens (self : t) (tokens : list str) : list str :=
  match _stemmer self with
  | None => tokens
  | Some stem => map stem tokens
  end.

Definition transform (self : t) (text : str) : list str :=
  let normalized := _normalize_text text in
  let tokens := _tokenize normalized in
  let tokens := _filter_stopwords self tokens in
  _stem_tokens self tokens.

End WithResources.
End TextPipeline.

(** ** indexing.py *)

(** [HashingVectorizer.transform] on one text and
    [cosine_similarity] of two rows. *)
Class Vectorizer := {
  Vec : Type;
  hv_transform : str -> Vec;
  cosine_similarity : Vec -> Vec -> Q
}.

Module TfidfIndexer.
Section WithVectorizer.
Context {V : Vectorizer}.

Record t := mk {
  matrix : option (list Vec);
  doc_index : list Document.t
}.

(** [__init__] *)
Definition init : t := {| matrix := None; doc_index := [] |}.

(** [vectorizer.transform(texts)]: one row per text. *)
Definition transform (texts : list str) : list Vec :=
  map hv_transform texts.

(** [vstack([a, b])] *)
Definition vstack (a b : list Vec) : list Vec := a ++ b.

Definition row_count (self : t) : nat :=
  match matrix self with
  | None => 0
  | Some m => length m
  end.

Definition partial_fit (self : t) (docs_chunk : list Document.t) : t :=
  let token_texts :=
    map (fun document => join [space] (Document.tokens document))
        (filter (fun document => truthy (Document.tokens document))
                docs_chunk) in
  if negb (truthy token_texts) then self
  else
    let m := transform token_texts in
    {| matrix := Some (match matrix self with
                       | None => m
                       | Some old => vstack old m
                       end);
       doc_index := doc_index self ++ docs_chunk |}.

Definition query (self : t) (tokens : list str) (top_k : option Z)
  : list (Document.t * Q) :=
  match matrix self with
  | None => []
  | Some m =>
      if negb (truthy (doc_index self)) then []
      else
        let query_text := join [space] tokens in
        let query_vector := hv_transform query_text in
        let similarities := map (cosine_similarity query_vector) m in
        let ranked :=
          sorted_desc snd (combine (doc_index self) similarities) in
        match top_k with
        | None => ranked
        | Some k =>
            if (Z.of_nat (length ranked) <=? k)%Z then ranked
            else slice_to ranked k
        end
  end.

(** The parameter [top_k] has the default value 5. *)
Definition query_default (self : t) (tokens : list str) :=
  query self tokens (Some 5%Z).

(** The index after a sequence of [partial_fit] calls. *)
Definition fit_all (self : t) (chunks : list (list Document.t)) : t :=
  fold_left partial_fit chunks self.

End WithVectorizer.
End TfidfIndexer.

(** ** The arithmetic of scikit-learn

    [HashingVectorizer.transform] and [cosine_similarity] compute in
    IEEE-754 binary64.  The operations are those of the standard
    library's specification of binary floating point, at precision 53
    and maximal exponent 1024, rounding to nearest, ties to even. *)

Module Binary64.

Definition prec : Z := 53.
Definition emax : Z := 1024.

Definition float : Type := SpecFloat.spec_float.

Definition add : float -> float -> float := SpecFloat.SFadd prec emax.
Definition mul : float -> float -> float := SpecFloat.SFmul prec emax.
Definition div : float -> float -> float := SpecFloat.SFdiv prec emax.
Definition sqrt : float -> float := SpecFloat.SFsqrt prec emax.

(** [x == y] on doubles: false when either side is NaN. *)
Definition eqb : float -> float -> bool := SpecFloat.SFeqb.

Definition zero : float := SpecFloat.S754_zero false.
Definition one : float :=
  SpecFloat.S754_finite false 4503599627370496 (-52).

(** The rational number a finite double denotes.  Infinities and NaN
    denote none and are sent to 0. *)
Definition to_Q (x : float) : Q :=
  match x with
  | SpecFloat.S754_finite s m e =>
      let n := if s then Z.neg m else Z.pos m in
      match e with
      | Zneg p => Qmake n (2 ^ p)
      | _ => Qmake (n * 2 ^ e) 1
      end
  | _ => 0%Q
  end.

End Binary64.

(** The column of a token: the absolute value of the MurmurHash3 of
    its UTF-8 bytes, modulo [n_features]. *)
Class FeatureHash := {
  feature_index : str -> N
}.

Module Sklearn.
Section WithHash.
Context {H : FeatureHash}.

(** A row of a CSR matrix: the stored entries, by increasing column. *)
Definition Row : Type := list (N * Binary64.float).

(** One more occurrence of column [i]: [FeatureHasher] stores the
    value 1.0 for every token and [sum_duplicates] adds the values of
    equal columns. *)
Fixpoint add_term (i : N) (row : Row) : Row :=
  match row with
  | [] => [(i, Binary64.one)]
  | (j, x) :: rest =>
      if (i <? j)%N then (i, Binary64.one) :: row
      else if (i =? j)%N then (j, Binary64.add x Binary64.one) :: rest
      else (j, x) :: add_term i rest
  end.

(** The hashed term counts of a text, with the analyzer of
    [TfidfIndexer.__init__]: no preprocessing, tokens of
    [text.split()], no alternating sign. *)
Definition term_counts (text : str) : Row :=
  fold_left (fun row token => add_term (feature_index token) row)
            (split text) [].

(** [inplace_csr_row_normalize_l2] on one row. *)
Definition sum_squares (row : Row) : Binary64.float :=
  fold_left (fun sum_ entry =>
               Binary64.add sum_ (Binary64.mul (snd entry) (snd entry)))
            row Binary64.zero.

Definition normalize (row : Row) : Row :=
  let sum_ := sum_squares row in
  if Binary64.eqb sum_ Binary64.zero then row
  else
    let norm := Binary64.sqrt sum_ in
    map (fun entry => (fst entry, Binary64.div (snd entry) norm)) row.

(** [HashingVectorizer.transform([text])]: the counts, with the
    default [norm="l2"]. *)
Definition hashing_transform (text : str) : Row :=
  normalize (term_counts text).

Fixpoint stored (i : N) (row : Row) : option Binary64.float :=
  match row with
  | [] => None
  | (j, x) :: rest => if (i =? j)%N then Some x else stored i rest
  end.

(** One entry of [safe_sparse_dot(X, Y.T, dense_output=True)]: the
    products of the entries stored in both rows are added in the
    order of the columns of [x], starting from 0.0. *)
Definition safe_sparse_dot (x y : Row) : Binary64.float :=
  fold_left (fun sum_ entry =>
               match stored (fst entry) y with
               | Some v => Binary64.add sum_ (Binary64.mul (snd entry) v)
               | None => sum_
               end)
            x Binary64.zero.

(** [cosine_similarity(X, Y)]: both sides are normalized again. *)
Definition cosine_similarity (x y : Row) : Binary64.float :=
  safe_sparse_dot (normalize x) (normalize y).

End WithHash.
End Sklearn.

(** The vectorizer of [TfidfIndexer] in binary64; a score is the
    rational number that the double denotes. *)
Definition binary64_vectorizer (H : FeatureHash) : Vectorizer :=
  {| Vec := Sklearn.Row;
     hv_transform := Sklearn.hashing_transform;
     cosine_similarity := fun x y =>
       Binary64.to_Q (Sklearn.cosine_similarity x y) |}.

(** ** source_finder.py *)

Module SourceMatch.
Record t := mk {
  path : Path;
  score : Q
}.
End SourceMatch.

Module SourcePosition.
Record t := mk {
  path : Path;
  index : Z;
  snippet : str;
  score : Q;
  label : str
}.
End SourcePosition.

(** The files the fragment locator re-opens.  A read that raises is
    [None]: [read_text p] is
    [p.read_text(encoding="utf-8", errors="ignore")] and
    [docx_paragraphs p] the texts of [DocxDocument(p).paragraphs]. *)
Class FileSystem := {
  read_text : Path -> option str;
  docx_paragraphs : Path -> option (list str)
}.

(** [p.suffix] of [pathlib]. *)
Definition path_name (p : Path) : str :=
  let fix after_sep (s acc : str) : str :=
    match s with
    | [] => acc
    | c :: rest =>
        if (c =? 47)%N then after_sep rest rest else after_sep rest acc
    end in
  after_sep p p.

Fixpoint rfind_dot (s : str) (i : nat) (found : option nat) : option nat :=
  match s with
  | [] => found
  | c :: rest =>
      rfind_dot rest (S i) (if (c =? 46)%N then Some i else found)
  end.

Definition path_suffix (p : Path) : str :=
  let name := path_name p in
  match rfind_dot name 0 None with
  | Some i =>
      if (0 <? i) && (i <? length name - 1) then skipn i name else []
  | None => []
  end.

(** Dictionaries in insertion order. *)
Section Dict.
Variable Val : Type.

Fixpoint dict_get (d : list (Path * Val)) (k : Path) (default : Val)
  : Val :=
  match d with
  | [] => default
  | (k', v) :: rest =>
      if str_eqb k' k then v else dict_get rest k default
  end.

(** [d[k] = v]: an existing key keeps its place. *)
Fixpoint dict_set (d : list (Path * Val)) (k : Path) (v : Val)
  : list (Path * Val) :=
  match d with
  | [] => [(k, v)]
  | (k', v') :: rest =>
      if str_eqb k' k then (k', v) :: rest
      else (k', v') :: dict_set rest k v
  end.
End Dict.

Definition Qlt_bool (x y : Q) : bool := negb (Qle_bool y x).

Definition ellipsis : str := lit "...".

Module SourceFinder.
Section WithEnvironment.
Context {R : Resources} {V : Vectorizer} {F : FileSystem}.

(** [loader] is the sequence of chunks that [loader.load()] yields. *)
Record t := mk {
  loader : list (list Document.t);
  pipeline : TextPipeline.t;
  indexer : TfidfIndexer.t
}.

Definition _process_document (self : t) (document : Document.t)
  : Document.t :=
  {| Document.path := Document.path document;
     Document.text := Document.text document;
     Document.metadata := Document.metadata document;
     Document.tokens :=
       TextPipeline.transform (pipeline self) (Document.text document) |}.

Definition build_index (self : t) : t :=
  fold_left
    (fun (self : t) docs_chunk =>
       let processed := map (_process_document self) docs_chunk in
       {| loader := loader self;
          pipeline := pipeline self;
          indexer := TfidfIndexer.partial_fit (indexer self) processed |})
    (loader self) self.

Definition _aggregate_best_scores
  (scored_documents : list (Document.t * Q)) : list (Path * Q) :=
  fold_left
    (fun best (item : Document.t * Q) =>
       let (doc, score) := item in
       if Qle_bool score 0%Q then best
       else if Qlt_bool (dict_get best (Document.path doc) 0%Q) score
            then dict_set best (Document.path doc) score
            else best)
    scored_documents [].

Definition find_sources (self : t) (query_text : str) (top_k : Z)
  : list SourceMatch.t :=
  let tokens := TextPipeline.transform (pipeline self) query_text in
  if negb (truthy tokens) then []
  else
    let scored_documents :=
      TfidfIndexer.query (indexer self) tokens None in
    let best_scores := _aggregate_best_scores scored_documents in
    let ranked_paths := slice_to (sorted_desc snd best_scores) top_k in
    map (fun item : Path * Q => SourceMatch.mk (fst item) (snd item))
        ranked_paths.

(** The parameter [top_k] has the default value 5. *)
Definition find_sources_default (self : t) (query_text : str) :=
  find_sources self query_text 5.

Definition _matches_query (self : t) (text : str)
  (query_tokens : list str) : bool :=
  let tokens := TextPipeline.transform (pipeline self) text in
  existsb (fun token => existsb (str_eqb token) query_tokens) tokens.

Definition _truncate (text : str) (limit : Z) : str :=
  if (Z.of_nat (length text) <=? limit)%Z then text
  else rstrip (slice_to text limit) ++ ellipsis.

(** The loop shared by [_scan_docx] and [_scan_text]: [units] are the
    enumerated paragraphs or lines still to visit, [positions] the
    ones collected so far. *)
Fixpoint scan_units_loop (self : t) (m : SourceMatch.t)
  (query_tokens : list str) (max_positions_per_file snippet_len : Z)
  (label : str) (units : list (Z * str))
  (positions : list SourcePosition.t) : list SourcePosition.t :=
  match units with
  | [] => positions
  | (idx, unit) :: rest =>
      if (max_positions_per_file <=? Z.of_nat (length positions))%Z
      then positions
      else
        let snippet := strip unit in
        if negb (truthy snippet) then
          scan_units_loop self m query_tokens max_positions_per_file
                      snippet_len label rest positions
        else if _matches_query self snippet query_tokens then
          scan_units_loop self m query_tokens max_positions_per_file
                      snippet_len label rest
                      (positions ++
                       [SourcePosition.mk (SourceMatch.path m) idx
                          (_truncate snippet snippet_len)
                          (SourceMatch.score m) label])
        else
          scan_units_loop self m query_tokens max_positions_per_file
                      snippet_len label rest positions
  end.

Definition _scan_docx (self : t) (m : SourceMatch.t)
  (query_tokens : list str) (max_positions_per_file snippet_len : Z)
  : option (list SourcePosition.t) :=
  match docx_paragraphs (SourceMatch.path m) with
  | None => None
  | Some paragraphs =>
      Some (scan_units_loop self m query_tokens max_positions_per_file
              snippet_len (lit "paragraph") (enumerate 1 paragraphs) [])
  end.

Definition _scan_text (self : t) (m : SourceMatch.t)
  (query_tokens : list str) (max_positions_per_file snippet_len : Z)
  : option (list SourcePosition.t) :=
  match read_text (SourceMatch.path m) with
  | None => None
  | Some content =>
      Some (scan_units_loop self m query_tokens max_positions_per_file
              snippet_len (lit "line") (enumerate 1 (splitlines content))
              [])
  end.

(** The scan of one match: [_scan_docx] for a [.docx] file,
    [_scan_text] otherwise. *)
Definition scan_one_match (self : t) (query_tokens : list str)
  (max_positions_per_file snippet_len : Z) (m : SourceMatch.t)
  : option (list SourcePosition.t) :=
  if str_eqb (lower (path_suffix (SourceMatch.path m))) (lit ".docx")
  then _scan_docx self m query_tokens max_positions_per_file snippet_len
  else _scan_text self m query_tokens max_positions_per_file snippet_len.

(** The loop over the matches; [None] when a scan raises. *)
Fixpoint scan_matches_loop (self : t) (query_tokens : list str)
  (max_positions_per_file snippet_len : Z)
  (matches : list SourceMatch.t) (positions : list SourcePosition.t)
  : option (list SourcePosition.t) :=
  match matches with
  | [] => Some positions
  | m :: rest =>
      match scan_one_match self query_tokens max_positions_per_file
                        snippet_len m with
      | None => None
      | Some found =>
          scan_matches_loop self query_tokens max_positions_per_file
                        snippet_len rest (positions ++ found)
      end
  end.

Definition locate_source_positions (self : t) (query_text : str)
  (top_k max_positions_per_file snippet_len : Z)
  : option (list SourcePosition.t) :=
  let matches := find_sources self query_text top_k in
  if negb (truthy matches) then Some []
  else
    let query_tokens := TextPipeline.transform (pipeline self) query_text in
    scan_matches_loop self query_tokens max_positions_per_file snippet_len
                  matches [].

End WithEnvironment.
End SourceFinder.

(** ** loaders.py *)

(** What the loader takes from the file system and the [csv] module:
    [path_exists p], [path_is_file p] and [rglob p] are [p.exists()],
    [p.is_file()] and [list(p.rglob("*"))]; [csv_reader lines] is the
    list of rows that [csv.reader] yields for the lines of a file. *)
Class Storage := {
  path_exists : Path -> bool;
  path_is_file : Path -> bool;
  rglob : Path -> list Path;
  csv_reader : list str -> list (list str)
}.

(** How a generator ended: by returning or by raising. *)
Inductive Outcome := Finished | Raised.

(** The lines that iterating over a text file yields, each with its
    line feed. *)
Fixpoint file_lines (s : str) : list str :=
  match s with
  | [] => []
  | c :: rest =>
      if (c =? 10)%N then [c] :: file_lines rest
      else
        match file_lines rest with
        | [] => [[c]]
        | l :: ls => (c :: l) :: ls
        end
  end.

Module ChunkedDocumentLoader.

Definition SUPPORTED_SUFFIXES : list str :=
  [lit ".txt"; lit ".docx"; lit ".csv"; lit ".html"; lit ".htm"].

Record t := mk {
  root : Path;
  chunk_size : Z
}.

(** [__init__] *)
Definition init (root : Path) (chunk_size : Z) : t :=
  {| root := root; chunk_size := Z.max 1 chunk_size |}.

(** The loop of [_load_txt], [_load_docx] and [_load_csv] over the
    enumerated items of a file: [text_of] extracts the text of an
    item, [make] builds its document, [chunk] is the chunk being
    filled and [yielded] the chunks yielded so far. *)
Section ChunkLoop.
Variable X : Type.
Variable text_of : X -> str.
Variable make : Z -> str -> Document.t.

Fixpoint chunk_loop (self : t) (items : list (Z * X))
  (chunk : list Document.t) (yielded : list (list Document.t))
  : list (list Document.t) :=
  match items with
  | [] => if truthy chunk then yielded ++ [chunk] else yielded
  | (idx, item) :: rest =>
      let text := text_of item in
      if negb (truthy text) then chunk_loop self rest chunk yielded
      else
        let chunk := chunk ++ [make idx text] in
        if (chunk_size self <=? Z.of_nat (length chunk))%Z
        then chunk_loop self rest [] (yielded ++ [chunk])
        else chunk_loop self rest chunk yielded
  end.
End ChunkLoop.

Section WithFiles.
Context {F : FileSystem} {S : Storage}.

Definition _load_txt (self : t) (file_path : Path)
  : option (list (list Document.t)) :=
  match read_text file_path with
  | None => None
  | Some content =>
      Some (chunk_loop strip
              (fun idx text =>
                 Document.mk file_path text
                   [(lit "line_number", MInt idx)] [])
              self (enumerate 1 (file_lines content)) [] [])
  end.

Definition _load_docx (self : t) (file_path : Path)
  : option (list (list Document.t)) :=
  match docx_paragraphs file_path with
  | None => None
  | Some paragraphs =>
      Some (chunk_loop strip
              (fun idx text =>
                 Document.mk file_path text
                   [(lit "paragraph", MInt idx)] [])
              self (enumerate 1 paragraphs) [] [])
  end.

(** The text of a CSV row: its non-blank cells, stripped and joined. *)
Definition row_text (row : list str) : str :=
  join [space]
    (map strip (filter (fun cell => truthy (strip cell)) row)).

Definition _load_csv (self : t) (file_path : Path)
  : option (list (list Document.t)) :=
  match read_text file_path with
  | None => None
  | Some content =>
      let reader := csv_reader (file_lines content) in
      let header :=
        match reader with
        | [] => MNone
        | first :: _ => MList first
        end in
      Some (chunk_loop row_text
              (fun idx text =>
                 Document.mk file_path text
                   [(lit "csv_row", MInt idx); (lit "header", header)] [])
              self (enumerate 2 (tl reader)) [] [])
  end.

Definition _load_html (self : t) (file_path : Path)
  : option (list (list Document.t)) :=
  match read_text file_path with
  | None => None
  | Some raw =>
      Some [[Document.mk file_path raw
               [(lit "suffix", MStr (lower (path_suffix file_path)))] []]]
  end.

Definition LoaderFn : Type :=
  t -> Path -> option (list (list Document.t)).

Definition _handlers : list (Path * LoaderFn) :=
  [(lit ".txt", _load_txt); (lit ".docx", _load_docx);
   (lit ".csv", _load_csv); (lit ".html", _load_html);
   (lit ".htm", _load_html)].

(** [self._handlers.get(suffix)] *)
Definition handler_for (suffix : str) : option LoaderFn :=
  dict_get (map (fun e => (fst e, Some (snd e))) _handlers) suffix None.

(** The loop of [load] over the paths: the chunks yielded and how the
    generator ended. *)
Fixpoint load_paths (self : t) (paths : list Path)
  : list (list Document.t) * Outcome :=
  match paths with
  | [] => ([], Finished)
  | file_path :: rest =>
      match handler_for (lower (path_suffix file_path)) with
      | None => load_paths self rest
      | Some handler =>
          match handler self file_path with
          | None => ([], Raised)
          | Some chunks =>
              let (more, outcome) := load_paths self rest in
              (chunks ++ more, outcome)
          end
      end
  end.

Definition load (self : t) : list (list Document.t) * Outcome :=
  if negb (path_exists (root self)) then ([], Raised)
  else
    let paths :=
      if path_is_file (root self) then [root self] else rglob (root self) in
    load_paths self paths.

End WithFiles.
End ChunkedDocumentLoader.

(** [SourceFinder.from_path] with the chunks of its loader, and how
    the loader's generator ends. *)
Definition from_path {R : Resources} {V : Vectorizer} {F : FileSystem}
  {S : Storage} (input_path : Path) (language : str)
  (use_stemming remove_stopwords : bool) (chunk_size : Z)
  : SourceFinder.t * Outcome :=
  let loader := ChunkedDocumentLoader.init input_path chunk_size in
  let (chunks, outcome) := ChunkedDocumentLoader.load loader in
  ({| SourceFinder.loader := chunks;
      SourceFinder.pipeline :=
        TextPipeline.init language use_stemming remove_stopwords;
      SourceFinder.indexer := TfidfIndexer.init |}, outcome).

(** [SourceFinder.find_sources_from_file]; [None] when the file cannot
    be read. *)
Definition find_sources_from_file {R : Resources} {V : Vectorizer}
  {F : FileSystem} (self : SourceFinder.t) (file_path : Path) (top_k : Z)
  : option (list SourceMatch.t) :=
  match read_text file_path with
  | None => None
  | Some text => Some (SourceFinder.find_sources self text top_k)
  end.

(** ** A concrete environment

    Exact stand-ins for the third-party interfaces, used to run the
    engine on concrete inputs. *)

(** Tag stripping in the manner of [get_text(separator=" ")]: what
    lies between [<] and [>] is replaced by the separator. *)
Fixpoint strip_tags (inside : bool) (s : str) : str :=
  match s with
  | [] => []
  | c :: rest =>
      if inside then
        if (c =? 62)%N then space :: strip_tags false rest
        else strip_tags true rest
      else if (c =? 60)%N then strip_tags true rest
      else c :: strip_tags false rest
  end.

(** The removal of a final [s], as the first step of the Porter
    algorithm does on words such as [ands] and [cats]. *)
Definition plural_stem (token : str) : str :=
  match rev token with
  | 115%N :: (c :: _ :: _) as stem_rev =>
      if (c =? 115)%N then token else rev stem_rev
  | _ => token
  end.

Definition sample_stopwords (corpus_name : str) : list str :=
  if str_eqb corpus_name (lit "english")
  then [lit "and"; lit "the"; lit "of"; lit "on"]
  else if str_eqb corpus_name (lit "russian")
  then [[1080]; [1085; 1072]; [1087; 1086]]%N
  else [].

Definition sample_resources : Resources :=
  {| get_text := strip_tags false;
     stopwords_words := sample_stopwords;
     russian_porter_stem := fun token => token;
     porter_stem := plural_stem |}.

(** Term counts without hash collisions; the similarity is the squared
    cosine of the count vectors, which is rational and orders the rows
    as the cosine does. *)
Definition term_dot (u v : list str) : Z :=
  fold_right (fun t acc => (Z.of_nat (count_occ str_eq_dec v t) + acc)%Z)
             0%Z u.

Definition squared_cosine (u v : list str) : Q :=
  let d := term_dot u v in
  let n := (term_dot u u * term_dot v v)%Z in
  if (n =? 0)%Z then 0%Q else Qmake (d * d) (Z.to_pos n).

Definition sample_vectorizer : Vectorizer :=
  {| Vec := list str;
     hv_transform := split;
     cosine_similarity := squared_cosine |}.

(** A processed unit of file [p] whose tokens are the words of [t]. *)
Definition sample_doc (p t : string) : Document.t :=
  {| Document.path := lit p;
     Document.text := lit t;
     Document.metadata := [];
     Document.tokens := split (lit t) |}.

(** A batch whose first document has no tokens. *)
Definition mixed_batch : list Document.t :=
  [sample_doc "a.txt" ""; sample_doc "b.txt" "bar"].

(** Six units of one file. *)
Definition six_units : list Document.t :=
  [sample_doc "a.txt" "one"; sample_doc "a.txt" "two";
   sample_doc "a.txt" "three"; sample_doc "a.txt" "four";
   sample_doc "a.txt" "five"; sample_doc "a.txt" "six"].

Definition six_index : TfidfIndexer.t (V := sample_vectorizer) :=
  TfidfIndexer.partial_fit TfidfIndexer.init six_units.


(** A unit as the loader yields it, before normalization. *)
Definition raw_doc (p t : string) : Document.t :=
  {| Document.path := lit p;
     Document.text := lit t;
     Document.metadata := [];
     Document.tokens := [] |}.

Definition newline : str := [10%N].

Definition sample_pipeline : TextPipeline.t :=
  TextPipeline.init (R := sample_resources) (lit "en") true true.

(** Two text files; [a.txt] has a line without any word. *)
Definition sample_files : FileSystem :=
  {| read_text := fun p =>
       if str_eqb p (lit "a.txt")
       then Some (lit "The cat sat on the mat" ++ newline ++
                  lit "?!" ++ newline ++ lit "Dogs bark" ++ newline)
       else if str_eqb p (lit "b.txt")
       then Some (lit "Cats" ++ newline ++ lit "Birds sing" ++ newline)
       else None;
     docx_paragraphs := fun _ => None |}.

(** A finder whose loader yields one chunk per file, every line of the
    file being a unit. *)
Definition clean_finder : SourceFinder.t (V := sample_vectorizer) :=
  {| SourceFinder.loader :=
       [[raw_doc "a.txt" "The cat sat on the mat";
         raw_doc "a.txt" "Dogs bark"];
        [raw_doc "b.txt" "Cats"; raw_doc "b.txt" "Birds sing"]];
     SourceFinder.pipeline := sample_pipeline;
     SourceFinder.indexer := TfidfIndexer.init |}.

Definition built_finder : SourceFinder.t (V := sample_vectorizer) :=
  SourceFinder.build_index (R := sample_resources) clean_finder.

(** The same files with the line [?!] of [a.txt] among the units. *)
Definition mixed_finder : SourceFinder.t (V := sample_vectorizer) :=
  {| SourceFinder.loader :=
       [[raw_doc "a.txt" "The cat sat on the mat";
         raw_doc "a.txt" "?!";
         raw_doc "a.txt" "Dogs bark"];
        [raw_doc "b.txt" "Cats"; raw_doc "b.txt" "Birds sing"]];
     SourceFinder.pipeline := sample_pipeline;
     SourceFinder.indexer := TfidfIndexer.init |}.

Definition misbuilt_finder : SourceFinder.t (V := sample_vectorizer) :=
  SourceFinder.build_index (R := sample_resources) mixed_finder.

(** An index in which the units of [a.txt] are not contiguous. *)
Definition interleaved_finder : SourceFinder.t (V := sample_vectorizer) :=
  {| SourceFinder.loader := [];
     SourceFinder.pipeline := sample_pipeline;
     SourceFinder.indexer :=
       TfidfIndexer.partial_fit TfidfIndexer.init
         [sample_doc "a.txt" "cat mat"; sample_doc "b.txt" "cat";
          sample_doc "a.txt" "cat"] |}.

(** * Properties *)

(** ** Sorting by decreasing key *)

Section Sorting.
Variable A : Type.
Variable key : A -> Q.

Definition ge_key (x y : A) : Prop := (key y <= key x)%Q.

Definition descending (l : list A) : Prop := StronglySorted ge_key l.

Definition has_key (s : Q) (x : A) : bool := Qeq_bool (key x) s.

Lemma insert_desc_perm (x : A) (l : list A) :
  Permutation (insert_desc key x l) (x :: l).
Proof.
  induction l as [|y ys IH]; simpl; [reflexivity|].
  destruct (Qle_bool (key y) (key x)); [reflexivity|].
  rewrite IH. apply perm_swap.
Qed.

Lemma sorted_desc_perm (l : list A) : Permutation (sorted_desc key l) l.
Proof.
  induction l as [|x l IH]; simpl; [reflexivity|].
  rewrite insert_desc_perm. now constructor.
Qed.

Lemma sorted_desc_length (l : list A) :
  length (sorted_desc key l) = length l.
Proof. apply Permutation_length, sorted_desc_perm. Qed.

Lemma sorted_desc_In (x : A) (l : list A) :
  In x (sorted_desc key l) <-> In x l.
Proof.
  split; apply Permutation_in;
    [|symmetry]; apply sorted_desc_perm.
Qed.

Lemma insert_desc_descending (x : A) (l : list A) :
  descending l -> descending (insert_desc key x l).
Proof.
  induction 1 as [|y ys Hys IH Hy]; simpl.
  - repeat constructor.
  - destruct (Qle_bool (key y) (key x)) eqn:E.
    + apply Qle_bool_iff in E.
      constructor; [now constructor|].
      constructor; [exact E|].
      eapply Forall_impl; [|exact Hy].
      intros z Hz. unfold ge_key in *. eapply Qle_trans; eauto.
    + constructor; [exact IH|].
      assert (Hlt : (key x < key y)%Q).
      { apply Qnot_le_lt. intros H. apply Qle_bool_iff in H. congruence. }
      eapply Permutation_Forall; [symmetry; apply insert_desc_perm|].
      constructor; [|exact Hy].
      unfold ge_key. now apply Qlt_le_weak.
Qed.

Lemma sorted_desc_descending (l : list A) : descending (sorted_desc key l).
Proof.
  induction l as [|x l IH]; simpl; [constructor|].
  now apply insert_desc_descending.
Qed.

(** Stability: the elements of any one key keep their order. *)
Lemma insert_desc_stable (s : Q) (x : A) (l : list A) :
  filter (has_key s) (insert_desc key x l) = filter (has_key s) (x :: l).
Proof.
  induction l as [|y ys IH]; simpl; [reflexivity|].
  destruct (Qle_bool (key y) (key x)) eqn:E; [reflexivity|].
  simpl in *. rewrite IH.
  destruct (has_key s x) eqn:Ex; [|reflexivity].
  destruct (has_key s y) eqn:Ey; [|reflexivity].
  exfalso. unfold has_key in *.
  apply Qeq_bool_iff in Ex, Ey.
  assert (H : Qle_bool (key y) (key x) = true).
  { apply Qle_bool_iff. rewrite Ex, Ey. apply Qle_refl. }
  congruence.
Qed.

Lemma sorted_desc_stable (s : Q) (l : list A) :
  filter (has_key s) (sorted_desc key l) = filter (has_key s) l.
Proof.
  induction l as [|x l IH]; simpl; [reflexivity|].
  rewrite insert_desc_stable. simpl. now rewrite IH.
Qed.

Lemma sorted_desc_id (l : list A) : descending l -> sorted_desc key l = l.
Proof.
  induction 1 as [|x l Hl IH Hx]; simpl; [reflexivity|].
  rewrite IH. destruct l as [|y ys]; simpl; [reflexivity|].
  inversion Hx as [|? ? Hy _]; subst.
  apply Qle_bool_iff in Hy. now rewrite Hy.
Qed.

End Sorting.

Lemma descending_app_r {A} (key : A -> Q) (l1 l2 : list A) :
  descending key (l1 ++ l2) -> descending key l2.
Proof.
  induction l1 as [|x l1 IH]; simpl; [auto|].
  intros H. inversion H; subst. auto.
Qed.

Lemma firstn_incl {A} (n : nat) (l : list A) (x : A) :
  In x (firstn n l) -> In x l.
Proof.
  intros H. rewrite <- (firstn_skipn n l). apply in_or_app. now left.
Qed.

Lemma slice_to_nonneg {A} (xs : list A) (k : Z) :
  (0 <= k)%Z -> slice_to xs k = firstn (Z.to_nat k) xs.
Proof.
  intros Hk. unfold slice_to.
  destruct (k <? 0)%Z eqn:E; [|reflexivity].
  apply Z.ltb_lt in E. lia.
Qed.

(** ** The incremental index *)

Section IndexProperties.
Context {V : Vectorizer}.
Import TfidfIndexer.

(** Rows and documents are aligned. *)
Definition aligned (self : t) : Prop :=
  row_count self = length (doc_index self).

Lemma truthy_false_nil {A} (l : list A) : truthy l = false -> l = [].
Proof. destruct l; [reflexivity | discriminate]. Qed.

Lemma filter_tokens_all_empty (docs : list Document.t) :
  Forall (fun d => Document.tokens d = []) docs ->
  filter (fun d => truthy (Document.tokens d)) docs = [].
Proof.
  induction 1 as [|d docs Hd _ IH]; simpl; [reflexivity|].
  rewrite Hd; simpl. exact IH.
Qed.

(** A batch with at least one document that has tokens adds one row
    per such document and one [doc_index] entry per document. *)
Lemma partial_fit_counts (self : t) (docs_chunk : list Document.t) :
  let with_tokens :=
    filter (fun d => truthy (Document.tokens d)) docs_chunk in
  with_tokens <> [] ->
  row_count (partial_fit self docs_chunk)
    = row_count self + length with_tokens /\
  length (doc_index (partial_fit self docs_chunk))
    = length (doc_index self) + length docs_chunk.
Proof.
  intros with_tokens Hne. unfold partial_fit. fold with_tokens.
  destruct with_tokens as [|d ds] eqn:E; [congruence|].
  simpl negb. cbv iota. unfold row_count, transform, vstack. simpl.
  split.
  - destruct (matrix self); simpl; rewrite ?length_app; simpl;
      rewrite ?length_map; lia.
  - now rewrite length_app.
Qed.

(** C1 (as the code behaves): a batch that mixes a document without
    tokens and a document with tokens adds one row to the matrix and
    two entries to [doc_index], so after this [partial_fit] the row
    count differs from the length of [doc_index]. *)
Theorem partial_fit_mixed_batch_misaligned :
  let idx := partial_fit init mixed_batch in
  row_count idx = 1 /\ length (doc_index idx) = 2 /\ ~ aligned idx.
Proof.
  simpl. unfold aligned, row_count; simpl.
  repeat split; try reflexivity. discriminate.
Qed.

(** C10: a batch in which every document has an empty token list
    leaves the index as it was: neither the matrix nor [doc_index]
    changes. *)
Theorem partial_fit_all_empty_unchanged (self : t)
  (docs_chunk : list Document.t) :
  Forall (fun d => Document.tokens d = []) docs_chunk ->
  partial_fit self docs_chunk = self.
Proof.
  intros Hempty. unfold partial_fit.
  rewrite (filter_tokens_all_empty Hempty). reflexivity.
Qed.


End IndexProperties.

Lemma partial_fit_all_empty_unchanged_witness :
  Forall (fun d => Document.tokens d = [])
         [sample_doc "a.txt" ""; sample_doc "b.txt" ""] /\
  TfidfIndexer.partial_fit six_index
    [sample_doc "a.txt" ""; sample_doc "b.txt" ""] = six_index.
Proof.
  assert (H : Forall (fun d => Document.tokens d = [])
                     [sample_doc "a.txt" ""; sample_doc "b.txt" ""])
    by (repeat constructor).
  split; [exact H|].
  apply (@partial_fit_all_empty_unchanged sample_vectorizer
           six_index _ H).
Defined.



(** ** Snippets *)

Definition all_space (s : str) : Prop := Forall (fun c => isspace c = true) s.

Lemma lstrip_suffix (s : str) :
  exists p, s = p ++ lstrip s /\ all_space p.
Proof.
  induction s as [|c s [p [Hs Hp]]]; simpl.
  - exists []. split; [reflexivity | constructor].
  - destruct (isspace c) eqn:E.
    + exists (c :: p). simpl. split; [now f_equal | now constructor].
    + exists []. split; [reflexivity | constructor].
Qed.

Lemma lstrip_head (s : str) (c : char) (r : str) :
  lstrip s = c :: r -> isspace c = false.
Proof.
  induction s as [|d s IH]; simpl; [discriminate|].
  destruct (isspace d) eqn:E; [exact IH|].
  intros H. injection H as -> _. exact E.
Qed.

Lemma rstrip_prefix (s : str) :
  exists r, s = rstrip s ++ r /\ all_space r.
Proof.
  unfold rstrip. destruct (lstrip_suffix (rev s)) as [p [Hs Hp]].
  exists (rev p). split.
  - rewrite <- rev_app_distr, <- Hs. now rewrite rev_involutive.
  - unfold all_space in *. rewrite Forall_forall in *.
    intros c Hc. apply Hp. now apply in_rev.
Qed.

Lemma rstrip_last (s l : str) (c : char) :
  rstrip s = l ++ [c] -> isspace c = false.
Proof.
  unfold rstrip. intros H.
  apply (f_equal (@rev char)) in H.
  rewrite rev_involutive, rev_app_distr in H. simpl in H.
  eapply lstrip_head; eauto.
Qed.

Lemma rstrip_length (s : str) : length (rstrip s) <= length s.
Proof.
  destruct (rstrip_prefix s) as [r [Hs _]].
  rewrite Hs at 2. rewrite length_app. lia.
Qed.



(** ** Order of occurrence in a list *)

Section Occurrence.
Variable X : Type.

(** Some element with [P] occurs before every element with [Q]. *)
Definition precedes (P Q : X -> Prop) (l : list X) : Prop :=
  exists l1 x l2, l = l1 ++ x :: l2 /\ P x /\ Forall (fun y => ~ Q y) l1.

(** [a] occurs before [b]. *)
Definition before (a b : X) (l : list X) : Prop :=
  exists l1 l2 l3, l = l1 ++ a :: l2 ++ b :: l3.

Lemma filter_split (f : X -> bool) (l m1 m2 : list X) (x : X) :
  filter f l = m1 ++ x :: m2 ->
  exists l1 l2,
    l = l1 ++ x :: l2 /\ filter f l1 = m1 /\ filter f l2 = m2 /\ f x = true.
Proof.
  revert m1. induction l as [|y l IH]; intros m1 H; simpl in H.
  - destruct m1; discriminate.
  - destruct (f y) eqn:E.
    + destruct m1 as [|z m1]; simpl in H; injection H as Hy H.
      * subst y. exists [], l. simpl. now rewrite E.
      * subst z. destruct (IH _ H) as [l1 [l2 [Hl [H1 [H2 Hx]]]]].
        exists (y :: l1), l2. simpl. rewrite E, H1, Hl. auto.
    + destruct (IH _ H) as [l1 [l2 [Hl [H1 [H2 Hx]]]]].
      exists (y :: l1), l2. simpl. rewrite E, Hl. auto.
Qed.

Lemma before_filter (f : X -> bool) (a b : X) (l : list X) :
  before a b (filter f l) -> before a b l.
Proof.
  intros [m1 [m2 [m3 H]]].
  destruct (@filter_split f _ _ _ _ H) as [l1 [l2 [Hl [_ [H2 _]]]]].
  destruct (@filter_split f _ _ _ _ H2) as [l3 [l4 [Hl2 _]]].
  exists l1, l3, l4. now rewrite Hl, Hl2.
Qed.

Lemma before_firstn (n : nat) (a b : X) (l : list X) :
  before a b (firstn n l) -> before a b l.
Proof.
  intros [m1 [m2 [m3 H]]].
  exists m1, m2, (m3 ++ skipn n l).
  rewrite <- (firstn_skipn n l) at 1. rewrite H.
  repeat (rewrite <- app_assoc; simpl). reflexivity.
Qed.

(** Precedence among the elements that pass a filter. *)
Lemma precedes_filter (f : X -> bool) (P Q : X -> Prop) (l : list X) :
  precedes (fun x => P x /\ f x = true) (fun x => Q x /\ f x = true) l ->
  precedes P Q (filter f l).
Proof.
  intros [l1 [x [l2 [Hl [[HP Hf] HQ]]]]].
  exists (filter f l1), x, (filter f l2).
  rewrite Hl, filter_app. simpl. rewrite Hf.
  repeat split; auto.
  rewrite Forall_forall in *. intros y Hy HQy.
  apply filter_In in Hy. destruct Hy as [Hy Hfy].
  apply (HQ y Hy). auto.
Qed.

Lemma precedes_unfilter (f : X -> bool) (P Q : X -> Prop) (l : list X) :
  precedes P Q (filter f l) ->
  precedes (fun x => P x /\ f x = true) (fun x => Q x /\ f x = true) l.
Proof.
  intros [m1 [x [m2 [H [HP HQ]]]]].
  destruct (@filter_split f _ _ _ _ H) as [l1 [l2 [Hl [H1 [_ Hx]]]]].
  exists l1, x, l2. repeat split; auto.
  rewrite Forall_forall in *. intros y Hy [HQy Hfy].
  apply (HQ y); [|exact HQy].
  rewrite <- H1. apply filter_In. auto.
Qed.

Lemma precedes_weaken (P P' Q Q' : X -> Prop) (l : list X) :
  (forall x, P x -> P' x) -> (forall x, Q' x -> Q x) ->
  precedes P Q l -> precedes P' Q' l.
Proof.
  intros HP HQ [l1 [x [l2 [Hl [Hx H1]]]]].
  exists l1, x, l2. repeat split; auto.
  eapply Forall_impl; [|exact H1]. intros y Hy Hq. apply Hy. auto.
Qed.

End Occurrence.

Lemma before_map_inv (X Y : Type) (g : X -> Y) (c d : Y) (l : list X) :
  before c d (map g l) ->
  exists a b, before a b l /\ g a = c /\ g b = d.
Proof.
  intros [m1 [m2 [m3 H]]].
  apply map_eq_app in H. destruct H as [l1 [r1 [Hl [H1 H]]]].
  apply map_eq_cons in H. destruct H as [a [r2 [Hr1 [Ha H]]]].
  apply map_eq_app in H. destruct H as [l2 [r3 [Hr2 [H2 H]]]].
  apply map_eq_cons in H. destruct H as [b [l3 [Hr3 [Hb H3]]]].
  exists a, b. split; [|auto].
  exists l1, l2, l3. now subst.
Qed.


(** ** Dictionaries *)

Lemma str_eqb_eq (a b : str) : str_eqb a b = true <-> a = b.
Proof.
  unfold str_eqb. destruct (str_eq_dec a b); split; congruence.
Qed.

Lemma str_eqb_neq (a b : str) : str_eqb a b = false <-> a <> b.
Proof.
  unfold str_eqb. destruct (str_eq_dec a b); split; congruence.
Qed.

Section DictFacts.
Variable Val : Type.
Implicit Types (d : list (Path * Val)) (k : Path) (v : Val).

Lemma dict_get_absent d k v :
  ~ In k (map fst d) -> dict_get d k v = v.
Proof.
  induction d as [|[k' v'] d IH]; simpl; [reflexivity|].
  intros H. destruct (str_eqb k' k) eqn:E.
  - apply str_eqb_eq in E. tauto.
  - apply IH. tauto.
Qed.

Lemma dict_get_present d k v :
  In k (map fst d) -> In (k, dict_get d k v) d.
Proof.
  induction d as [|[k' v'] d IH]; simpl; [tauto|].
  intros H. destruct (str_eqb k' k) eqn:E.
  - apply str_eqb_eq in E. subst. now left.
  - apply str_eqb_neq in E. right. apply IH. tauto.
Qed.

Lemma dict_set_absent d k v :
  ~ In k (map fst d) -> dict_set d k v = d ++ [(k, v)].
Proof.
  induction d as [|[k' v'] d IH]; simpl; [reflexivity|].
  intros H. destruct (str_eqb k' k) eqn:E.
  - apply str_eqb_eq in E. tauto.
  - f_equal. apply IH. tauto.
Qed.

End DictFacts.

(** ** Aggregation of the best score per path *)

Definition positive (item : Document.t * Q) : bool :=
  negb (Qle_bool (snd item) 0%Q).

Definition unit_path (item : Document.t * Q) : Path :=
  Document.path (fst item).

Definition other_key (p : Path) (e : Path * Q) : bool :=
  negb (str_eqb (fst e) p).

(** The first occurrence of every path, in order of occurrence. *)
Fixpoint first_occ (l : list (Document.t * Q)) : list (Path * Q) :=
  match l with
  | [] => []
  | x :: r =>
      (unit_path x, snd x)
        :: filter (other_key (unit_path x)) (first_occ r)
  end.

(** One step of the loop of [_aggregate_best_scores]. *)
Definition agg_step (best : list (Path * Q)) (item : Document.t * Q)
  : list (Path * Q) :=
  let (doc, score) := item in
  if Qle_bool score 0%Q then best
  else if Qlt_bool (dict_get best (Document.path doc) 0%Q) score
       then dict_set best (Document.path doc) score
       else best.

Lemma aggregate_fold (l : list (Document.t * Q)) :
  SourceFinder._aggregate_best_scores l = fold_left agg_step l [].
Proof. reflexivity. Qed.

Definition fresh_key (best : list (Path * Q)) (e : Path * Q) : bool :=
  negb (existsb (str_eqb (fst e)) (map fst best)).

Lemma existsb_str_eqb_In (p : Path) (ks : list Path) :
  existsb (str_eqb p) ks = true <-> In p ks.
Proof.
  rewrite existsb_exists. split.
  - intros [k [Hk E]]. apply str_eqb_eq in E. now subst.
  - intros H. exists p. split; [exact H | now apply str_eqb_eq].
Qed.

Lemma filter_filter_and {A} (f g : A -> bool) (l : list A) :
  filter f (filter g l) = filter (fun x => f x && g x) l.
Proof.
  induction l as [|x l IH]; simpl; [reflexivity|].
  destruct (g x); simpl; rewrite ?andb_true_r, ?andb_false_r;
    [destruct (f x)|]; now rewrite IH.
Qed.

Lemma descending_filter {A} (key : A -> Q) (f : A -> bool) (l : list A) :
  descending key l -> descending key (filter f l).
Proof.
  induction 1 as [|x l Hl IH Hx]; simpl; [constructor|].
  destruct (f x); [|exact IH].
  constructor; [exact IH|].
  rewrite Forall_forall in *. intros y Hy.
  apply filter_In in Hy. now apply Hx.
Qed.

Lemma agg_skip_nonpositive (l : list (Document.t * Q))
  (best : list (Path * Q)) :
  fold_left agg_step l best = fold_left agg_step (filter positive l) best.
Proof.
  revert best. induction l as [|[d s] l IH]; intros best; simpl;
    [reflexivity|].
  unfold positive at 1. simpl.
  destruct (Qle_bool s 0) eqn:E; simpl.
  - apply IH.
  - rewrite E. apply IH.
Qed.

Lemma first_occ_In (l : list (Document.t * Q)) (e : Path * Q) :
  In e (first_occ l) ->
  exists r1 x r2,
    l = r1 ++ x :: r2 /\ unit_path x = fst e /\ snd x = snd e /\
    Forall (fun y => unit_path y <> fst e) r1.
Proof.
  induction l as [|x r IH]; simpl; [tauto|].
  intros [He | He].
  - subst e. exists [], x, r. simpl. auto.
  - apply filter_In in He. destruct He as [He Hk].
    destruct (IH He) as [r1 [y [r2 [Hr [Hp [Hs H1]]]]]].
    exists (x :: r1), y, r2. subst r. repeat split; auto.
    constructor; [|exact H1].
    unfold other_key in Hk. apply negb_true_iff, str_eqb_neq in Hk.
    congruence.
Qed.

Lemma first_occ_descending (l : list (Document.t * Q)) :
  descending snd l -> descending snd (first_occ l).
Proof.
  induction 1 as [|x r Hr IH Hx]; simpl; [constructor|].
  constructor; [now apply descending_filter|].
  rewrite Forall_forall in *. intros e He.
  apply filter_In in He. destruct He as [He _].
  destruct (first_occ_In _ _ He) as [r1 [y [r2 [Hl [_ [Hs _]]]]]].
  unfold ge_key. rewrite <- Hs. apply Hx.
  rewrite Hl. apply in_elt.
Qed.

Lemma first_occ_keys_NoDup (l : list (Document.t * Q)) :
  NoDup (map fst (first_occ l)).
Proof.
  induction l as [|x r IH]; simpl; [constructor|].
  constructor.
  - rewrite in_map_iff. intros [e [He Hin]].
    apply filter_In in Hin. destruct Hin as [_ Hk].
    unfold other_key in Hk. apply negb_true_iff, str_eqb_neq in Hk.
    congruence.
  - clear -IH. induction (first_occ r) as [|e es IHes]; simpl;
      [constructor|].
    inversion IH as [|? ? Hn Hes]; subst.
    destruct (other_key (unit_path x) e); simpl; [|auto].
    constructor; [|auto].
    rewrite in_map_iff in *. intros [e' [He' Hin]].
    apply Hn. exists e'. split; [exact He'|].
    apply filter_In in Hin. tauto.
Qed.

Lemma first_occ_covers (l : list (Document.t * Q)) (x : Document.t * Q) :
  In x l -> In (unit_path x) (map fst (first_occ l)).
Proof.
  induction l as [|y r IH]; simpl; [tauto|].
  intros [H | H]; [subst; now left|].
  destruct (str_eq_dec (unit_path y) (unit_path x)) as [E | E];
    [now left | right].
  specialize (IH H). rewrite in_map_iff in *.
  destruct IH as [e [He Hin]]. exists e. split; [exact He|].
  apply filter_In. split; [exact Hin|].
  unfold other_key. apply negb_true_iff, str_eqb_neq. congruence.
Qed.

Lemma first_occ_before (l : list (Document.t * Q)) (a b : Path * Q) :
  before a b (first_occ l) ->
  precedes (fun x => unit_path x = fst a /\ snd x = snd a)
           (fun x => unit_path x = fst b) l.
Proof.
  induction l as [|x r IH]; simpl.
  - intros [l1 [l2 [l3 H]]]. destruct l1; discriminate.
  - intros [l1 [l2 [l3 H]]]. destruct l1 as [|h l1]; simpl in H.
    + injection H as Ha _. subst a.
      exists [], x, r. simpl. auto.
    + injection H as Hh H. subst h.
      assert (Hb : In b (filter (other_key (unit_path x)) (first_occ r))).
      { rewrite H. apply in_or_app. right. right.
        apply in_or_app. right. now left. }
      apply filter_In in Hb. destruct Hb as [_ Hk].
      unfold other_key in Hk. apply negb_true_iff, str_eqb_neq in Hk.
      assert (Hbef : before a b (first_occ r)).
      { eapply before_filter. exists l1, l2, l3. exact H. }
      destruct (IH Hbef) as [r1 [y [r2 [Hr [Hy H1]]]]].
      exists (x :: r1), y, r2. subst r. repeat split; try tauto.
      constructor; [congruence | exact H1].
Qed.

Lemma fresh_key_app (best : list (Path * Q)) (p : Path) (s : Q)
  (e : Path * Q) :
  fresh_key (best ++ [(p, s)]) e = fresh_key best e && other_key p e.
Proof.
  unfold fresh_key, other_key.
  rewrite map_app, existsb_app. simpl.
  rewrite orb_false_r. apply negb_orb.
Qed.

(** On positive scores in decreasing order the loop appends, for each
    path that is not yet a key, its first occurrence. *)
Lemma agg_descending (l : list (Document.t * Q)) :
  forall best : list (Path * Q),
    descending snd l ->
    Forall (fun x => positive x = true) l ->
    (forall e x, In e best -> In x l -> (snd x <= snd e)%Q) ->
    fold_left agg_step l best
      = best ++ filter (fresh_key best) (first_occ l).
Proof.
  induction l as [|[d s] r IH]; intros best Hdesc Hpos Hup; simpl.
  - now rewrite app_nil_r.
  - inversion Hdesc as [|? ? Hr Hs]; subst.
    inversion Hpos as [|? ? Hps Hpr]; subst.
    unfold positive in Hps. simpl in Hps.
    apply negb_true_iff in Hps. rewrite Hps.
    unfold fresh_key at 1. unfold unit_path at 1. simpl.
    destruct (existsb (str_eqb (Document.path d)) (map fst best)) eqn:E;
      simpl.
    + apply existsb_str_eqb_In in E.
      pose proof (@dict_get_present Q best (Document.path d) 0%Q E) as Hin.
      assert (Hle : (s <= dict_get best (Document.path d) 0)%Q).
      { apply (Hup _ (d, s) Hin). now left. }
      unfold Qlt_bool. apply Qle_bool_iff in Hle. rewrite Hle. simpl.
      rewrite IH; auto.
      2:{ intros e x He Hx. apply (Hup e x He). now right. }
      f_equal. rewrite filter_filter_and.
      apply filter_ext. intros e. unfold fresh_key, other_key, unit_path.
      simpl. destruct (str_eqb (fst e) (Document.path d)) eqn:Ee; simpl.
      * apply str_eqb_eq in Ee. rewrite Ee.
        apply existsb_str_eqb_In in E. now rewrite E.
      * now rewrite andb_true_r.
    + assert (Hnot : ~ In (Document.path d) (map fst best)).
      { intros H. apply existsb_str_eqb_In in H. congruence. }
      rewrite (@dict_get_absent Q best (Document.path d) 0%Q Hnot).
      unfold Qlt_bool. rewrite Hps. simpl.
      rewrite (@dict_set_absent Q best (Document.path d) s Hnot).
      rewrite IH; auto.
      * rewrite <- app_assoc. simpl. do 2 f_equal.
        rewrite filter_filter_and. apply filter_ext. intros e.
        apply fresh_key_app.
      * intros e x He Hx. apply in_app_or in He.
        destruct He as [He | [He | []]].
        -- apply (Hup e x He). now right.
        -- subst e. simpl. rewrite Forall_forall in Hs. now apply Hs.
Qed.

Lemma aggregate_descending (l : list (Document.t * Q)) :
  descending snd l ->
  SourceFinder._aggregate_best_scores l = first_occ (filter positive l).
Proof.
  intros Hdesc. rewrite aggregate_fold, agg_skip_nonpositive.
  rewrite agg_descending.
  - simpl. apply forallb_filter_id.
    apply forallb_forall. reflexivity.
  - now apply descending_filter.
  - apply Forall_forall. intros x Hx. now apply filter_In in Hx.
  - intros e x [].
Qed.

(** ** The matcher *)

Section FinderProperties.
Context {R : Resources} {V : Vectorizer} {F : FileSystem}.

(** The tokens of a query. *)
Definition query_tokens (self : SourceFinder.t) (query_text : str)
  : list str :=
  TextPipeline.transform (SourceFinder.pipeline self) query_text.

(** The pairs that [query] sorts: [zip(doc_index, similarities)]. *)
Definition scored_units (idx : TfidfIndexer.t) (tokens : list str)
  : list (Document.t * Q) :=
  match TfidfIndexer.matrix idx with
  | None => []
  | Some m =>
      combine (TfidfIndexer.doc_index idx)
        (map (cosine_similarity (hv_transform (join [space] tokens))) m)
  end.

Lemma query_full_ranking (idx : TfidfIndexer.t) (tokens : list str) :
  TfidfIndexer.query idx tokens None
    = sorted_desc snd (scored_units idx tokens).
Proof.
  unfold TfidfIndexer.query, scored_units.
  destruct (TfidfIndexer.matrix idx) as [m|]; [|reflexivity].
  destruct (TfidfIndexer.doc_index idx); reflexivity.
Qed.

(** The best score of every path, best first. *)
Definition best_ranking (self : SourceFinder.t) (query_text : str)
  : list (Path * Q) :=
  first_occ
    (filter positive
       (sorted_desc snd
          (scored_units (SourceFinder.indexer self)
                        (query_tokens self query_text)))).

Definition to_match (item : Path * Q) : SourceMatch.t :=
  SourceMatch.mk (fst item) (snd item).

Lemma best_ranking_descending (self : SourceFinder.t) (query_text : str) :
  descending snd (best_ranking self query_text).
Proof.
  apply first_occ_descending, descending_filter, sorted_desc_descending.
Qed.

Lemma find_sources_ranking (self : SourceFinder.t) (query_text : str)
  (top_k : Z) :
  SourceFinder.find_sources self query_text top_k
    = if negb (truthy (query_tokens self query_text)) then []
      else map to_match (slice_to (best_ranking self query_text) top_k).
Proof.
  unfold SourceFinder.find_sources. fold (query_tokens self query_text).
  destruct (truthy (query_tokens self query_text)); simpl; [|reflexivity].
  rewrite query_full_ranking.
  rewrite aggregate_descending by apply sorted_desc_descending.
  fold (best_ranking self query_text).
  rewrite sorted_desc_id by apply best_ranking_descending.
  reflexivity.
Qed.

Lemma slice_to_In {A} (xs : list A) (k : Z) (x : A) :
  In x (slice_to xs k) -> In x xs.
Proof.
  unfold slice_to. destruct (k <? 0)%Z; apply firstn_incl.
Qed.

Lemma find_sources_In (self : SourceFinder.t) (query_text : str)
  (top_k : Z) (m : SourceMatch.t) :
  In m (SourceFinder.find_sources self query_text top_k) ->
  In (SourceMatch.path m, SourceMatch.score m)
     (best_ranking self query_text).
Proof.
  rewrite find_sources_ranking.
  destruct (negb (truthy (query_tokens self query_text))); [intros []|].
  rewrite in_map_iff. intros [[p s] [Hm Hin]]. subst m. simpl.
  eapply slice_to_In; eauto.
Qed.

(** Every reported score is the greatest score that [query] paired
    with a unit of that path, and it is positive. *)
Lemma find_sources_best_score (self : SourceFinder.t) (query_text : str)
  (top_k : Z) (m : SourceMatch.t) :
  In m (SourceFinder.find_sources self query_text top_k) ->
  let units := scored_units (SourceFinder.indexer self)
                            (query_tokens self query_text) in
  (0 < SourceMatch.score m)%Q /\
  (exists u, In u units /\ unit_path u = SourceMatch.path m /\
             snd u = SourceMatch.score m) /\
  (forall u, In u units -> unit_path u = SourceMatch.path m ->
             (snd u <= SourceMatch.score m)%Q).
Proof.
  intros Hm units. apply find_sources_In in Hm.
  unfold best_ranking in Hm. fold units in Hm.
  destruct (first_occ_In _ _ Hm) as [r1 [x [r2 [Hl [Hp [Hs H1]]]]]].
  simpl in Hp, Hs, H1.
  assert (Hx : In x (filter positive (sorted_desc snd units))).
  { rewrite Hl. apply in_elt. }
  apply filter_In in Hx. destruct Hx as [Hx Hpos].
  split; [|split].
  - rewrite <- Hs. unfold positive in Hpos.
    apply negb_true_iff in Hpos. apply Qnot_le_lt. intros H.
    apply Qle_bool_iff in H. congruence.
  - exists x. split; [now apply sorted_desc_In in Hx | auto].
  - intros u Hu Hpu.
    destruct (Qlt_le_dec 0 (snd u)) as [Hu0 | Hu0].
    + assert (Hin : In u (filter positive (sorted_desc snd units))).
      { apply filter_In. split; [now apply sorted_desc_In|].
        unfold positive. apply negb_true_iff.
        destruct (Qle_bool (snd u) 0) eqn:E; [|reflexivity].
        apply Qle_bool_iff in E. exfalso.
        apply (Qlt_irrefl 0). eapply Qlt_le_trans; eauto. }
      assert (Hd : descending snd (filter positive (sorted_desc snd units)))
        by apply descending_filter, sorted_desc_descending.
      rewrite Hl in Hin, Hd. apply in_app_or in Hin.
      destruct Hin as [Hin | [Hin | Hin]].
      * rewrite Forall_forall in H1. now apply H1 in Hin.
      * subst u. rewrite Hs. apply Qle_refl.
      * apply descending_app_r in Hd.
        inversion Hd as [|? ? _ Hall]; subst.
        rewrite Forall_forall in Hall. rewrite <- Hs. now apply Hall.
    + eapply Qle_trans; [exact Hu0|].
      apply Qlt_le_weak. rewrite <- Hs.
      unfold positive in Hpos. apply negb_true_iff in Hpos.
      apply Qnot_le_lt. intros H. apply Qle_bool_iff in H. congruence.
Qed.

(** No path without a positive score is reported, and every path with
    one is reported when the bound allows. *)
Lemma best_ranking_complete (self : SourceFinder.t) (query_text : str)
  (u : Document.t * Q) :
  In u (scored_units (SourceFinder.indexer self)
                     (query_tokens self query_text)) ->
  (0 < snd u)%Q ->
  In (unit_path u) (map fst (best_ranking self query_text)).
Proof.
  intros Hu Hpos. apply first_occ_covers.
  apply filter_In. split; [now apply sorted_desc_In|].
  unfold positive. apply negb_true_iff.
  destruct (Qle_bool (snd u) 0) eqn:E; [|reflexivity].
  apply Qle_bool_iff in E. exfalso.
  apply (Qlt_irrefl 0). eapply Qlt_le_trans; eauto.
Qed.

End FinderProperties.

(** ** Contiguous storage of the units of a file *)

Fixpoint drop_path (p : Path) (ps : list Path) : list Path :=
  match ps with
  | [] => []
  | q :: rest => if str_eqb q p then drop_path p rest else ps
  end.

(** After the run of a path has ended the path does not come back. *)
Fixpoint contiguousb (ps : list Path) : bool :=
  match ps with
  | [] => true
  | p :: rest =>
      negb (existsb (str_eqb p) (drop_path p rest)) && contiguousb rest
  end.

Lemma drop_path_keeps (p q : Path) (l1 l2 : list Path) :
  q <> p -> exists l1', drop_path p (l1 ++ q :: l2) = l1' ++ q :: l2.
Proof.
  intros Hq. induction l1 as [|x l1 [l1' IH]]; simpl.
  - exists []. apply str_eqb_neq in Hq. now rewrite Hq.
  - destruct (str_eqb x p).
    + exists l1'. exact IH.
    + exists (x :: l1). reflexivity.
Qed.

Lemma contiguousb_suffix (l1 l2 : list Path) :
  contiguousb (l1 ++ l2) = true -> contiguousb l2 = true.
Proof.
  induction l1 as [|x l1 IH]; simpl; [auto|].
  intros H. apply andb_true_iff in H. now apply IH.
Qed.

Lemma contiguousb_no_return (p q : Path) (l1 l2 l3 l4 : list Path) :
  contiguousb (l1 ++ p :: l2 ++ q :: l3 ++ p :: l4) = true -> q = p.
Proof.
  intros H. apply contiguousb_suffix in H. simpl in H.
  apply andb_true_iff in H. destruct H as [H _].
  apply negb_true_iff in H.
  destruct (str_eq_dec q p) as [E | E]; [exact E | exfalso].
  destruct (drop_path_keeps l2 (l3 ++ p :: l4) E) as [l' Hd].
  rewrite Hd in H.
  assert (Ht : existsb (str_eqb p) (l' ++ q :: l3 ++ p :: l4) = true).
  { apply existsb_str_eqb_In. apply in_or_app. right. right.
    apply in_or_app. right. now left. }
  congruence.
Qed.

Lemma combine_fst_prefix {A B} (l : list A) (l' : list B) :
  exists rest, l = map fst (combine l l') ++ rest.
Proof.
  revert l'. induction l as [|x l IH]; intros l'; simpl.
  - exists []. reflexivity.
  - destruct l' as [|y l']; simpl.
    + exists (x :: l). reflexivity.
    + destruct (IH l') as [rest Hr]. exists rest. now f_equal.
Qed.

Lemma before_keys_distinct {A B} (l : list (A * B)) (a b : A * B) :
  NoDup (map fst l) -> before a b l -> fst a <> fst b.
Proof.
  intros Hnd [l1 [l2 [l3 Hl]]]. subst l.
  rewrite map_app in Hnd. simpl in Hnd. apply NoDup_remove_2 in Hnd.
  intros E. apply Hnd. apply in_or_app. right.
  rewrite map_app. apply in_or_app. right. left. now symmetry.
Qed.

(** ** Results of the matcher *)

Section MatcherResults.
Context {R : Resources} {V : Vectorizer} {F : FileSystem}.

Lemma slice_to_nil {A} (k : Z) : slice_to (@nil A) k = [].
Proof. unfold slice_to. destruct (k <? 0)%Z; apply firstn_nil. Qed.

Lemma filter_positive_none (l : list (Document.t * Q)) :
  Forall (fun u => (snd u <= 0)%Q) l -> filter positive l = [].
Proof.
  induction 1 as [|u l Hu _ IH]; simpl; [reflexivity|].
  unfold positive at 1. apply Qle_bool_iff in Hu. now rewrite Hu.
Qed.

Lemma locate_no_matches (self : SourceFinder.t) (query_text : str)
  (top_k max_positions_per_file snippet_len : Z) :
  SourceFinder.find_sources self query_text top_k = [] ->
  SourceFinder.locate_source_positions self query_text top_k
    max_positions_per_file snippet_len = Some [].
Proof.
  intros H. unfold SourceFinder.locate_source_positions. now rewrite H.
Qed.


Lemma positive_of_Qeq (u : Document.t * Q) (s : Q) :
  (snd u == s)%Q -> (0 < s)%Q -> positive u = true.
Proof.
  intros E Hs. unfold positive. apply negb_true_iff.
  destruct (Qle_bool (snd u) 0) eqn:L; [|reflexivity].
  apply Qle_bool_iff in L. rewrite E in L. exfalso.
  apply (Qlt_irrefl 0). eapply Qlt_le_trans; eauto.
Qed.

Lemma positive_lt (u : Document.t * Q) : positive u = true -> (0 < snd u)%Q.
Proof.
  unfold positive. intros H. apply negb_true_iff in H.
  apply Qnot_le_lt. intros L. apply Qle_bool_iff in L. congruence.
Qed.

(** Among the best entries of equal score, the earlier one has its
    best unit earlier in the index. *)
Lemma best_ranking_ties (self : SourceFinder.t) (query_text : str)
  (a b : Path * Q) :
  before a b (best_ranking self query_text) ->
  (snd a == snd b)%Q ->
  precedes (fun u => unit_path u = fst a /\ (snd u == snd a)%Q)
           (fun u => unit_path u = fst b /\ (snd u == snd b)%Q)
           (scored_units (SourceFinder.indexer self)
                         (query_tokens self query_text)).
Proof.
  intros Hbef Htie. unfold best_ranking in Hbef.
  set (units := scored_units _ _) in *.
  apply first_occ_before in Hbef.
  apply precedes_unfilter in Hbef.
  destruct Hbef as [l1 [x [l2 [Hl [[[Hp Hs] Hpos] H1]]]]].
  assert (Hsa : (0 < snd a)%Q) by (rewrite <- Hs; now apply positive_lt).
  assert (Hk : precedes
                 (fun u => unit_path u = fst a /\ has_key snd (snd a) u = true)
                 (fun u => unit_path u = fst b /\ has_key snd (snd a) u = true)
                 (sorted_desc snd units)).
  { exists l1, x, l2. split; [exact Hl|]. split.
    - split; [exact Hp|]. unfold has_key. apply Qeq_bool_iff.
      rewrite Hs. apply Qeq_refl.
    - eapply Forall_impl; [|exact H1]. intros y Hy; simpl.
      intros [Hyb Hyk]. apply Hy. split; [exact Hyb|].
      unfold has_key in Hyk. apply Qeq_bool_iff in Hyk.
      eapply positive_of_Qeq; eauto. }
  apply (@precedes_filter _ (has_key snd (snd a))
           (fun u => unit_path u = fst a)
           (fun u => unit_path u = fst b)) in Hk.
  rewrite sorted_desc_stable in Hk.
  apply precedes_unfilter in Hk.
  eapply precedes_weaken; [| |exact Hk]; simpl.
  - intros u [Hu Hu']. split; [exact Hu|].
    unfold has_key in Hu'. now apply Qeq_bool_iff in Hu'.
  - intros u [Hu Hu']. repeat split; auto.
    unfold has_key. apply Qeq_bool_iff.
    rewrite Hu'. now symmetry.
Qed.

End MatcherResults.

Section TopK.
Context {R : Resources} {V : Vectorizer} {F : FileSystem}.

Lemma descending_firstn {A} (key : A -> Q) (n : nat) (l : list A) :
  descending key l -> descending key (firstn n l).
Proof.
  intros H. revert n. induction H as [|x l Hl IH Hx]; intros n.
  - rewrite firstn_nil. constructor.
  - destruct n; simpl; constructor; [apply IH|].
    rewrite Forall_forall in *. intros y Hy.
    apply Hx. eapply firstn_incl; eauto.
Qed.

Lemma descending_to_match (l : list (Path * Q)) :
  descending snd l -> descending SourceMatch.score (map to_match l).
Proof.
  induction 1 as [|x l Hl IH Hx]; simpl; constructor; [exact IH|].
  rewrite Forall_forall in *. intros m Hm.
  apply in_map_iff in Hm. destruct Hm as [y [Hy Hin]]. subst m.
  apply (Hx y Hin).
Qed.

Lemma before_In_r {A} (a b : A) (l : list A) : before a b l -> In b l.
Proof.
  intros [l1 [l2 [l3 H]]]. subst l.
  apply in_or_app. right. right. apply in_or_app. right. now left.
Qed.

Lemma before_result (self : SourceFinder.t) (query_text : str) (top_k : Z)
  (a b : SourceMatch.t) :
  (0 <= top_k)%Z ->
  before a b (SourceFinder.find_sources self query_text top_k) ->
  before (SourceMatch.path a, SourceMatch.score a)
         (SourceMatch.path b, SourceMatch.score b)
         (best_ranking self query_text).
Proof.
  intros Hk. rewrite find_sources_ranking.
  destruct (negb _).
  - intros [l1 [l2 [l3 H]]]. destruct l1; discriminate.
  - rewrite slice_to_nonneg by exact Hk. intros H.
    apply before_map_inv in H.
    destruct H as [[pa sa] [[pb sb] [H [Ha Hb]]]]. subst a b. simpl.
    eapply before_firstn; eauto.
Qed.


End TopK.




(** C3 (as the code behaves): the index built from the files whose
    line [?!] has no tokens holds five documents and four rows, so
    [query] pairs the units with the scores of their successors.  For
    the query [cats], [find_sources] reports [a.txt] alone, with score
    1, while no unit of [a.txt] has a similarity above 1/3 and a unit
    of [b.txt] has similarity 1. *)
Theorem find_sources_misaligned_scores :
  let idx := SourceFinder.indexer misbuilt_finder in
  let tokens := query_tokens (R := sample_resources) misbuilt_finder
                             (lit "cats") in
  let similarity (d : Document.t) :=
    cosine_similarity (Vectorizer := sample_vectorizer)
      (hv_transform (join [space] tokens))
      (hv_transform (join [space] (Document.tokens d))) in
  length (TfidfIndexer.doc_index idx) = 5 /\
  TfidfIndexer.row_count idx = 4 /\
  SourceFinder.find_sources (R := sample_resources) misbuilt_finder
    (lit "cats") 5 = [SourceMatch.mk (lit "a.txt") 1%Q] /\
  forallb (fun d => negb (str_eqb (Document.path d) (lit "a.txt"))
                    || Qle_bool (similarity d) (1 # 3))
          (TfidfIndexer.doc_index idx) = true /\
  existsb (fun d => str_eqb (Document.path d) (lit "b.txt")
                    && Qeq_bool (similarity d) 1)
          (TfidfIndexer.doc_index idx) = true.
Proof. repeat split. Qed.

(** ** The fragment locator *)

Section Locator.
Context {R : Resources} {V : Vectorizer} {F : FileSystem}.

(** The file of a match can be opened by the scan that handles it. *)
Definition readable (p : Path) : Prop :=
  if str_eqb (lower (path_suffix p)) (lit ".docx")
  then docx_paragraphs p <> None
  else read_text p <> None.

Definition index_lt (a b : SourcePosition.t) : Prop :=
  (SourcePosition.index a < SourcePosition.index b)%Z.

Definition of_match (m : SourceMatch.t) (p : SourcePosition.t) : Prop :=
  SourcePosition.path p = SourceMatch.path m /\
  SourcePosition.score p = SourceMatch.score m.

(** The positions of one matched file: at most the cap, all of that
    file, in increasing unit order. *)
Definition file_positions (cap : Z) (m : SourceMatch.t)
  (g : list SourcePosition.t) : Prop :=
  (Z.of_nat (length g) <= cap)%Z /\
  Forall (of_match m) g /\
  StronglySorted index_lt g.

Lemma scan_units_enumerate (self : SourceFinder.t) (m : SourceMatch.t)
  (tokens : list str) (cap snippet_len : Z) (label : str)
  (xs : list str) :
  forall (start : Z) (positions : list SourcePosition.t),
  exists found,
    SourceFinder.scan_units_loop self m tokens cap snippet_len label
      (enumerate start xs) positions = positions ++ found /\
    (found = [] \/
     (Z.of_nat (length positions + length found) <= cap)%Z) /\
    Forall (fun p => of_match m p /\ (start <= SourcePosition.index p)%Z)
           found /\
    StronglySorted index_lt found.
Proof.
  induction xs as [|x xs IH]; intros start positions; simpl.
  - exists []. rewrite app_nil_r. repeat split; auto; constructor.
  - destruct (cap <=? Z.of_nat (length positions))%Z eqn:Ecap.
    { exists []. rewrite app_nil_r. repeat split; auto; constructor. }
    apply Z.leb_gt in Ecap.
    assert (Hweak : forall found,
      Forall (fun p => of_match m p /\ (start + 1 <= SourcePosition.index p)%Z)
             found ->
      Forall (fun p => of_match m p /\ (start <= SourcePosition.index p)%Z)
             found).
    { intros found H. eapply Forall_impl; [|exact H].
      simpl. intros p [Hp Hi]. split; [exact Hp | lia]. }
    destruct (negb (truthy (strip x))).
    { destruct (IH (start + 1)%Z positions) as [found [H1 [H2 [H3 H4]]]].
      exists found. auto. }
    destruct (SourceFinder._matches_query self (strip x) tokens).
    2:{ destruct (IH (start + 1)%Z positions) as [found [H1 [H2 [H3 H4]]]].
        exists found. auto. }
    set (p0 := SourcePosition.mk _ _ _ _ _).
    destruct (IH (start + 1)%Z (positions ++ [p0]))
      as [found [H1 [H2 [H3 H4]]]].
    exists (p0 :: found). split; [|split; [|split]].
    + rewrite H1, <- app_assoc. reflexivity.
    + right. destruct H2 as [H2 | H2].
      * subst found. simpl. lia.
      * rewrite length_app in H2. simpl in *. lia.
    + constructor; [|now apply Hweak].
      split; [split; reflexivity | simpl; lia].
    + constructor; [exact H4|].
      eapply Forall_impl; [|exact H3].
      unfold index_lt. simpl. intros p [_ Hp]. lia.
Qed.

Lemma scan_units_file_positions (self : SourceFinder.t)
  (m : SourceMatch.t) (tokens : list str) (cap snippet_len : Z)
  (label : str) (xs : list str) :
  (0 <= cap)%Z ->
  file_positions cap m
    (SourceFinder.scan_units_loop self m tokens cap snippet_len label
       (enumerate 1 xs) []).
Proof.
  intros Hcap.
  destruct (scan_units_enumerate self m tokens cap snippet_len label xs
              1 []) as [found [H1 [H2 [H3 H4]]]].
  rewrite H1. simpl. split; [|split].
  - destruct H2 as [H2 | H2]; [subst; simpl; lia | exact H2].
  - eapply Forall_impl; [|exact H3]. simpl. tauto.
  - exact H4.
Qed.

Lemma scan_match_file_positions (self : SourceFinder.t)
  (tokens : list str) (cap snippet_len : Z) (m : SourceMatch.t) :
  (0 <= cap)%Z ->
  readable (SourceMatch.path m) ->
  exists g,
    SourceFinder.scan_one_match self tokens cap snippet_len m = Some g /\
    file_positions cap m g.
Proof.
  intros Hcap Hread.
  unfold readable in Hread. unfold SourceFinder.scan_one_match.
  destruct (str_eqb _ _).
  - unfold SourceFinder._scan_docx.
    destruct (docx_paragraphs _) as [ps|]; [|congruence].
    eexists. split; [reflexivity|].
    now apply scan_units_file_positions.
  - unfold SourceFinder._scan_text.
    destruct (read_text _) as [content|]; [|congruence].
    eexists. split; [reflexivity|].
    now apply scan_units_file_positions.
Qed.

Lemma scan_matches_groups (self : SourceFinder.t) (tokens : list str)
  (cap snippet_len : Z) (matches : list SourceMatch.t) :
  (0 <= cap)%Z ->
  (forall m, In m matches -> readable (SourceMatch.path m)) ->
  forall positions,
  exists groups,
    SourceFinder.scan_matches_loop self tokens cap snippet_len matches
      positions = Some (positions ++ concat groups) /\
    Forall2 (file_positions cap) matches groups.
Proof.
  intros Hcap. induction matches as [|m ms IH]; intros Hread positions.
  - exists []. simpl. rewrite app_nil_r. split; [reflexivity|constructor].
  - destruct (scan_match_file_positions self tokens snippet_len m Hcap)
      as [g [Hg Hfp]]; [apply Hread; now left|].
    destruct (IH (fun m' H => Hread m' (or_intror H)) (positions ++ g))
      as [groups [Hgs Hall]].
    exists (g :: groups). simpl. rewrite Hg, Hgs, <- app_assoc.
    split; [reflexivity | now constructor].
Qed.

End Locator.

Section LocatorResult.
Context {R : Resources} {V : Vectorizer} {F : FileSystem}.

Lemma NoDup_firstn {A} (n : nat) (l : list A) :
  NoDup l -> NoDup (firstn n l).
Proof.
  intros H. revert n. induction H as [|x l Hx Hl IH]; intros n.
  - rewrite firstn_nil. constructor.
  - destruct n; simpl; constructor; [|apply IH].
    intros Hin. apply Hx. eapply firstn_incl; eauto.
Qed.

Lemma find_sources_paths_NoDup (self : SourceFinder.t) (query_text : str)
  (top_k : Z) :
  NoDup (map SourceMatch.path
             (SourceFinder.find_sources self query_text top_k)).
Proof.
  rewrite find_sources_ranking. destruct (negb _); [constructor|].
  rewrite map_map. simpl.
  change (fun x : Path * Q => fst x) with (@fst Path Q).
  unfold slice_to. destruct (top_k <? 0)%Z;
    rewrite <- firstn_map; apply NoDup_firstn, first_occ_keys_NoDup.
Qed.

Definition on_path (p : Path) (pos : SourcePosition.t) : bool :=
  str_eqb (SourcePosition.path pos) p.

Lemma filter_none {A} (f : A -> bool) (l : list A) :
  Forall (fun x => f x = false) l -> filter f l = [].
Proof.
  induction 1 as [|x l Hx _ IH]; simpl; [reflexivity|].
  now rewrite Hx.
Qed.

Lemma filter_length_le {A} (f : A -> bool) (l : list A) :
  length (filter f l) <= length l.
Proof.
  induction l as [|x l IH]; simpl; [lia|].
  destruct (f x); simpl; lia.
Qed.

Lemma group_other_path (cap : Z) (m : SourceMatch.t)
  (g : list SourcePosition.t) (p : Path) :
  file_positions cap m g -> SourceMatch.path m <> p ->
  filter (on_path p) g = [].
Proof.
  intros [_ [Hall _]] Hneq. apply filter_none.
  eapply Forall_impl; [|exact Hall].
  intros pos [Hp _]. unfold on_path. apply str_eqb_neq. congruence.
Qed.

Lemma groups_per_path (cap : Z) (matches : list SourceMatch.t)
  (groups : list (list SourcePosition.t)) :
  (0 <= cap)%Z ->
  Forall2 (file_positions cap) matches groups ->
  NoDup (map SourceMatch.path matches) ->
  forall m, In m matches ->
    (Z.of_nat (length (filter (on_path (SourceMatch.path m))
                              (concat groups))) <= cap)%Z.
Proof.
  intros Hcap Hall. induction Hall as [|m0 g0 ms gs Hg0 Hrest IH];
    intros Hnd m Hm; simpl in *; [tauto|].
  inversion Hnd as [|? ? Hfresh Hnd']; subst.
  rewrite filter_app, length_app.
  destruct Hm as [Hm | Hm].
  - subst m0.
    assert (Hgs : filter (on_path (SourceMatch.path m)) (concat gs) = []).
    { clear IH Hnd Hnd' Hg0. induction Hrest as [|m1 g1 ms gs Hg1 _ IHr];
        simpl; [reflexivity|].
      rewrite filter_app, IHr, app_nil_r.
      - eapply group_other_path; [exact Hg1|].
        intros E. apply Hfresh. simpl. now left.
      - intros Hin. apply Hfresh. simpl. now right. }
    rewrite Hgs. simpl.
    pose proof (filter_length_le (on_path (SourceMatch.path m)) g0).
    destruct Hg0 as [Hlen _]. lia.
  - rewrite (group_other_path (p := SourceMatch.path m) Hg0).
    + simpl. now apply IH.
    + intros E. apply Hfresh. rewrite E. now apply in_map.
Qed.

(** C7: when the files of the matches can be opened, the result of
    [locate_source_positions] is the concatenation, in the order of
    the matches of [find_sources], of one group of positions per
    matched file; each group has at most [max_positions_per_file]
    positions, all carrying the path and score of that match, in
    increasing unit order; and no more than [max_positions_per_file]
    positions of the whole result carry the path of any one match. *)
Theorem locate_positions_per_file (self : SourceFinder.t)
  (query_text : str) (top_k max_positions_per_file snippet_len : Z) :
  (0 <= max_positions_per_file)%Z ->
  let matches := SourceFinder.find_sources self query_text top_k in
  (forall m, In m matches -> readable (SourceMatch.path m)) ->
  exists groups,
    SourceFinder.locate_source_positions self query_text top_k
      max_positions_per_file snippet_len = Some (concat groups) /\
    Forall2 (file_positions max_positions_per_file) matches groups /\
    forall m, In m matches ->
      (Z.of_nat (length (filter (on_path (SourceMatch.path m))
                                (concat groups)))
       <= max_positions_per_file)%Z.
Proof.
  intros Hcap matches Hread.
  unfold SourceFinder.locate_source_positions. fold matches.
  destruct (@scan_matches_groups _ _ _ self
              (TextPipeline.transform (SourceFinder.pipeline self) query_text)
              max_positions_per_file snippet_len matches Hcap Hread [])
    as [groups [Hscan Hall]].
  exists groups. split; [|split; [exact Hall|]].
  - destruct (truthy matches) eqn:T; simpl.
    + exact Hscan.
    + apply truthy_false_nil in T. rewrite T in Hall.
      inversion Hall. reflexivity.
  - apply (groups_per_path Hcap Hall).
    apply find_sources_paths_NoDup.
Qed.

End LocatorResult.

Lemma locate_positions_per_file_witness :
  (0 <= 2)%Z /\
  (forall m,
     In m (SourceFinder.find_sources (R := sample_resources) built_finder
             (lit "cat dogs") 5) ->
     readable (F := sample_files) (SourceMatch.path m)) /\
  exists groups,
    SourceFinder.locate_source_positions (R := sample_resources)
      (F := sample_files) built_finder (lit "cat dogs") 5 2 12
      = Some (concat groups) /\
    Forall2 (file_positions 2)
      (SourceFinder.find_sources (R := sample_resources) built_finder
         (lit "cat dogs") 5)
      groups.
Proof.
  assert (Hcap : (0 <= 2)%Z) by lia.
  assert (Hread : forall m,
     In m (SourceFinder.find_sources (R := sample_resources) built_finder
             (lit "cat dogs") 5) ->
     readable (F := sample_files) (SourceMatch.path m)).
  { intros m Hm. vm_compute in Hm.
    destruct Hm as [Hm | [Hm | []]]; subst m; vm_compute; discriminate. }
  split; [exact Hcap|]. split; [exact Hread|].
  destruct (@locate_positions_per_file sample_resources sample_vectorizer
              sample_files built_finder (lit "cat dogs") 5 2 12 Hcap Hread)
    as [groups [H1 [H2 _]]].
  exists groups. split; [exact H1 | exact H2].
Defined.

(** ** Normalization *)

(** Code points that [lower] changes. *)
Definition is_upper (c : char) : bool :=
  ((65 <=? c) && (c <=? 90) || (1040 <=? c) && (c <=? 1071)
   || (1024 <=? c) && (c <=? 1039) || (c =? 304) || (c =? 8490))%N.

(** A code point of a normalized token. *)
Definition clean_char (c : char) : Prop :=
  TextPipeline.is_word_char c = true /\ is_upper c = false.

Definition clean_token (w : str) : Prop := w <> [] /\ Forall clean_char w.

Ltac char_cases :=
  repeat match goal with
    | |- context [(?a <=? ?b)%N] => destruct (N.leb_spec a b); try lia
    | |- context [(?a =? ?b)%N] => destruct (N.eqb_spec a b); try lia
    | H : context [(?a <=? ?b)%N] |- _ =>
        destruct (N.leb_spec a b); try lia
    | H : context [(?a =? ?b)%N] |- _ =>
        destruct (N.eqb_spec a b); try lia
    end;
  simpl in *; try discriminate; try reflexivity; try lia.

Lemma lower_char_fixed (c : char) : is_upper c = false -> lower_char c = [c].
Proof. unfold is_upper, lower_char. intros H. char_cases. Qed.

Lemma lower_char_not_upper (c d : char) :
  In d (lower_char c) -> is_upper d = false.
Proof.
  unfold lower_char. intros H.
  destruct ((65 <=? c) && (c <=? 90))%N eqn:E1.
  { destruct H as [H | []]. subst d. unfold is_upper. char_cases. }
  destruct ((1040 <=? c) && (c <=? 1071))%N eqn:E2.
  { destruct H as [H | []]. subst d. unfold is_upper. char_cases. }
  destruct ((1024 <=? c) && (c <=? 1039))%N eqn:E3.
  { destruct H as [H | []]. subst d. unfold is_upper. char_cases. }
  destruct (c =? 304)%N eqn:E4.
  { destruct H as [H | [H | []]]; subst d; reflexivity. }
  destruct (c =? 8490)%N eqn:E5.
  { destruct H as [H | []]. subst d. reflexivity. }
  destruct H as [H | []]. subst d. unfold is_upper. char_cases.
Qed.

Lemma word_char_not_space (c : char) :
  TextPipeline.is_word_char c = true -> isspace c = false.
Proof.
  unfold TextPipeline.is_word_char, isspace. intros H. char_cases.
Qed.

Lemma lower_fixed (s : str) :
  Forall (fun c => is_upper c = false) s -> lower s = s.
Proof.
  unfold lower. induction 1 as [|c s Hc _ IH]; simpl; [reflexivity|].
  rewrite (lower_char_fixed _ Hc), IH. reflexivity.
Qed.

Lemma lower_not_upper (s : str) :
  Forall (fun c => is_upper c = false) (lower s).
Proof.
  unfold lower. apply Forall_forall. intros d Hd.
  apply in_flat_map in Hd. destruct Hd as [c [_ Hd]].
  eapply lower_char_not_upper; eauto.
Qed.

Definition nonspace (s : str) : Prop := Forall (fun c => isspace c = false) s.

Lemma words_tokens (s : str) :
  Forall (fun c => In c s /\ isspace c = false) (fst (words s)) /\
  forall w, In w (snd (words s)) ->
    w <> [] /\ Forall (fun c => In c s /\ isspace c = false) w.
Proof.
  induction s as [|c s [IHw IHws]]; simpl.
  - split; [constructor | intros w []].
  - assert (Hup : forall w,
      Forall (fun c => In c s /\ isspace c = false) w ->
      Forall (fun d => (c = d \/ In d s) /\ isspace d = false) w).
    { intros w H. eapply Forall_impl; [|exact H]. simpl. tauto. }
    destruct (words s) as [w ws]. simpl in *.
    destruct (isspace c) eqn:E; simpl.
    + split; [constructor|].
      intros w' Hw'. destruct w as [|d w]; simpl in Hw'.
      * destruct (IHws w' Hw') as [H1 H2]. auto.
      * destruct Hw' as [Hw' | Hw'].
        -- subst w'. split; [discriminate | auto].
        -- destruct (IHws w' Hw') as [H1 H2]. auto.
    + split.
      * constructor; [auto | auto].
      * intros w' Hw'. destruct (IHws w' Hw') as [H1 H2]. auto.
Qed.

Lemma split_tokens (s : str) (w : str) :
  In w (split s) ->
  w <> [] /\ Forall (fun c => In c s /\ isspace c = false) w.
Proof.
  unfold split. pose proof (words_tokens s) as [Hw Hws].
  destruct (words s) as [w0 ws]. simpl in *.
  destruct w0 as [|d w0]; simpl.
  - apply Hws.
  - intros [H | H]; [subst w; split; [discriminate | exact Hw]|].
    now apply Hws.
Qed.

Lemma words_app_nonspace (x s : str) :
  nonspace x ->
  words (x ++ s) = (x ++ fst (words s), snd (words s)).
Proof.
  induction 1 as [|c x Hc _ IH]; simpl.
  - now destruct (words s).
  - rewrite IH, Hc. reflexivity.
Qed.

Lemma split_token (x : str) : x <> [] -> nonspace x -> split x = [x].
Proof.
  intros Hne Hx. unfold split.
  rewrite <- (app_nil_r x) at 1. rewrite words_app_nonspace by exact Hx.
  simpl. rewrite app_nil_r. destruct x; [congruence | reflexivity].
Qed.

Lemma split_token_space (x s : str) :
  x <> [] -> nonspace x -> split (x ++ space :: s) = x :: split s.
Proof.
  intros Hne Hx. unfold split.
  rewrite words_app_nonspace by exact Hx. simpl.
  destruct (words s) as [w ws]. simpl.
  rewrite app_nil_r. destruct x; [congruence | reflexivity].
Qed.

Lemma join_cons (sep x y : str) (r : list str) :
  join sep (x :: y :: r) = x ++ sep ++ join sep (y :: r).
Proof. reflexivity. Qed.

Lemma split_join (ts : list str) :
  Forall (fun w => w <> [] /\ nonspace w) ts ->
  split (join [space] ts) = ts.
Proof.
  induction 1 as [|x ts [Hne Hx] Hts IH]; [reflexivity|].
  destruct ts as [|y r].
  - simpl. now apply split_token.
  - rewrite join_cons.
    change ([space] ++ join [space] (y :: r))
      with (space :: join [space] (y :: r)).
    rewrite split_token_space by assumption. now rewrite IH.
Qed.

Lemma sub_chars (s : str) :
  Forall (fun c => c = space \/
                   (TextPipeline.is_word_char c = true /\ In c s))
         (TextPipeline.sub_non_alphanumeric s).
Proof.
  induction s as [|c s IH]; simpl; [constructor|].
  assert (Hup : Forall (fun d => d = space \/
             (TextPipeline.is_word_char d = true /\ (c = d \/ In d s)))
           (TextPipeline.sub_non_alphanumeric s)).
  { eapply Forall_impl; [|exact IH]. simpl. tauto. }
  destruct (TextPipeline.is_word_char c) eqn:E.
  - constructor; [right; auto | exact Hup].
  - destruct s as [|d s']; [repeat constructor; now left|].
    destruct (TextPipeline.is_word_char d);
      [constructor; [now left | exact Hup] | exact Hup].
Qed.

Lemma sub_word_app (x s : str) :
  Forall (fun c => TextPipeline.is_word_char c = true) x ->
  TextPipeline.sub_non_alphanumeric (x ++ s)
    = x ++ TextPipeline.sub_non_alphanumeric s.
Proof.
  induction 1 as [|c x Hc _ IH]; simpl; [reflexivity|].
  now rewrite Hc, IH.
Qed.

Lemma sub_join (ts : list str) :
  Forall (fun w => w <> [] /\
                   Forall (fun c => TextPipeline.is_word_char c = true) w)
         ts ->
  TextPipeline.sub_non_alphanumeric (join [space] ts) = join [space] ts.
Proof.
  induction 1 as [|x ts [Hne Hx] Hts IH]; [reflexivity|].
  destruct ts as [|y r].
  - simpl. rewrite <- (app_nil_r x) at 1.
    rewrite sub_word_app by exact Hx. simpl. now rewrite app_nil_r.
  - rewrite join_cons. rewrite sub_word_app by exact Hx.
    f_equal.
    change ([space] ++ join [space] (y :: r))
      with (space :: join [space] (y :: r)).
    rewrite <- IH at 2.
    inversion Hts as [|? ? [Hy Hyw] _]; subst.
    destruct y as [|d y']; [congruence|].
    inversion Hyw as [|? ? Hd _]; subst.
    assert (Hj : exists rest, join [space] ((d :: y') :: r) = d :: rest).
    { destruct r; simpl; eexists; reflexivity. }
    destruct Hj as [rest Hj]. rewrite Hj.
    change (TextPipeline.sub_non_alphanumeric (space :: d :: rest))
      with (if TextPipeline.is_word_char d
            then space :: TextPipeline.sub_non_alphanumeric (d :: rest)
            else TextPipeline.sub_non_alphanumeric (d :: rest)).
    now rewrite Hd.
Qed.

Section Idempotence.
Context {R : Resources}.

Definition is_stopword (self : TextPipeline.t) (w : str) : bool :=
  existsb (str_eqb w) (TextPipeline.stopword_set self).

(** The stemmer, when there is one, maps a normalized token to a
    normalized token that it leaves unchanged and that is not a
    stopword. *)
Definition stable_stemmer (self : TextPipeline.t) : Prop :=
  match TextPipeline._stemmer self with
  | None => True
  | Some stem =>
      forall w, clean_token w ->
        clean_token (stem w) /\ stem (stem w) = stem w /\
        is_stopword self (stem w) = false
  end.

(** Text made of normalized tokens and spaces holds no markup:
    [get_text] returns it as it is. *)
Definition markup_free_fixed : Prop :=
  forall s, Forall (fun c => c = space \/ clean_char c) s -> get_text s = s.

Definition stem_fixed (self : TextPipeline.t) (w : str) : Prop :=
  match TextPipeline._stemmer self with
  | None => True
  | Some stem => stem w = w
  end.

(** What holds of every token that [transform] returns. *)
Definition settled (self : TextPipeline.t) (w : str) : Prop :=
  clean_token w /\ is_stopword self w = false /\ stem_fixed self w.

Lemma tokenize_clean (text : str) (w : str) :
  In w (TextPipeline._tokenize (TextPipeline._normalize_text text)) ->
  clean_token w.
Proof.
  unfold TextPipeline._tokenize, TextPipeline._normalize_text.
  intros H. apply filter_In in H. destruct H as [H _].
  apply split_tokens in H. destruct H as [Hne Hall].
  split; [exact Hne|].
  eapply Forall_impl; [|exact Hall]. simpl. intros c [Hin Hsp].
  pose proof (sub_chars (lower (get_text text))) as Hsub.
  rewrite Forall_forall in Hsub.
  destruct (Hsub c Hin) as [Hc | [Hw Hl]].
  - subst c. discriminate.
  - split; [exact Hw|].
    pose proof (lower_not_upper (get_text text)) as Hlow.
    rewrite Forall_forall in Hlow. now apply Hlow.
Qed.

Lemma filter_stopwords_In (self : TextPipeline.t) (tokens : list str)
  (w : str) :
  In w (TextPipeline._filter_stopwords self tokens) ->
  In w tokens /\ is_stopword self w = false.
Proof.
  unfold TextPipeline._filter_stopwords, is_stopword.
  destruct (TextPipeline.stopword_set self) as [|s0 ss]; simpl.
  - auto.
  - intros H. apply filter_In in H. destruct H as [H1 H2].
    split; [exact H1 | now apply negb_true_iff in H2].
Qed.

Lemma transform_settled (self : TextPipeline.t) (text : str) :
  stable_stemmer self ->
  Forall (settled self) (TextPipeline.transform self text).
Proof.
  intros Hstem. unfold TextPipeline.transform, TextPipeline._stem_tokens.
  unfold settled, stem_fixed, stable_stemmer in *.
  destruct (TextPipeline._stemmer self) as [stem|].
  - apply Forall_forall. intros w Hw.
    apply in_map_iff in Hw. destruct Hw as [w0 [Hw Hin]]. subst w.
    apply filter_stopwords_In in Hin. destruct Hin as [Hin _].
    apply tokenize_clean in Hin.
    destruct (Hstem w0 Hin) as [H1 [H2 H3]]. auto.
  - apply Forall_forall. intros w Hw.
    apply filter_stopwords_In in Hw. destruct Hw as [Hin Hstop].
    apply tokenize_clean in Hin. auto.
Qed.

Lemma join_chars (P : char -> Prop) (ts : list str) :
  P space -> Forall (Forall P) ts -> Forall P (join [space] ts).
Proof.
  intros Hsp. induction 1 as [|x ts Hx Hts IH]; [constructor|].
  destruct ts as [|y r]; [exact Hx|].
  rewrite join_cons. apply Forall_app. split; [exact Hx|].
  constructor; [exact Hsp | exact IH].
Qed.

Lemma settled_fixed (self : TextPipeline.t) (ts : list str) :
  markup_free_fixed ->
  Forall (settled self) ts ->
  TextPipeline.transform self (join [space] ts) = ts.
Proof.
  intros Hmarkup Hts.
  assert (Hclean : Forall clean_token ts).
  { eapply Forall_impl; [|exact Hts]. unfold settled. tauto. }
  assert (Hnorm : TextPipeline._normalize_text (join [space] ts)
                  = join [space] ts).
  { unfold TextPipeline._normalize_text.
    rewrite Hmarkup.
    2:{ apply join_chars; [now left|].
        eapply Forall_impl; [|exact Hclean]. intros w [_ Hw].
        eapply Forall_impl; [|exact Hw]. auto. }
    rewrite lower_fixed.
    2:{ apply join_chars; [reflexivity|].
        eapply Forall_impl; [|exact Hclean]. intros w [_ Hw].
        eapply Forall_impl; [|exact Hw]. unfold clean_char. tauto. }
    apply sub_join.
    eapply Forall_impl; [|exact Hclean]. intros w [Hne Hw].
    split; [exact Hne|].
    eapply Forall_impl; [|exact Hw]. unfold clean_char. tauto. }
  assert (Htok : TextPipeline._tokenize (join [space] ts) = ts).
  { unfold TextPipeline._tokenize. rewrite split_join.
    - apply forallb_filter_id. apply forallb_forall. intros w Hw.
      rewrite Forall_forall in Hclean. destruct (Hclean w Hw) as [Hne _].
      destruct w; [congruence | reflexivity].
    - eapply Forall_impl; [|exact Hclean]. intros w [Hne Hw].
      split; [exact Hne|].
      eapply Forall_impl; [|exact Hw]. intros c [Hc _].
      now apply word_char_not_space. }
  unfold TextPipeline.transform. rewrite Hnorm, Htok.
  assert (Hstop : TextPipeline._filter_stopwords self ts = ts).
  { unfold TextPipeline._filter_stopwords.
    destruct (negb (truthy (TextPipeline.stopword_set self)));
      [reflexivity|].
    apply forallb_filter_id. apply forallb_forall. intros w Hw.
    rewrite Forall_forall in Hts. destruct (Hts w Hw) as [_ [Hs _]].
    unfold is_stopword in Hs. now rewrite Hs. }
  rewrite Hstop. unfold TextPipeline._stem_tokens.
  destruct (TextPipeline._stemmer self) as [stem|] eqn:E; [|reflexivity].
  rewrite <- (map_id ts) at 2. apply map_ext_in. intros w Hw.
  rewrite Forall_forall in Hts. destruct (Hts w Hw) as [_ [_ Hf]].
  unfold stem_fixed in Hf. now rewrite E in Hf.
Qed.


End Idempotence.

Lemma strip_tags_fixed (s : str) :
  Forall (fun c => c = space \/ clean_char c) s -> strip_tags false s = s.
Proof.
  induction 1 as [|c s Hc _ IH]; simpl; [reflexivity|].
  rewrite IH. destruct (N.eqb_spec c 60) as [E | E]; [|reflexivity].
  exfalso. subst c. destruct Hc as [Hc | [Hc _]]; discriminate.
Qed.



(** ** Indices without token-less documents

    When every document of every batch has tokens, row [i] of the
    matrix is the vector of [doc_index[i]] and the scores reported by
    [find_sources] are the best similarities of the paths. *)

Section FaithfulIndex.
Context {R : Resources} {V : Vectorizer} {F : FileSystem}.

Definition row_of (d : Document.t) : Vec :=
  hv_transform (join [space] (Document.tokens d)).

Definition faithful (self : TfidfIndexer.t) : Prop :=
  match TfidfIndexer.matrix self with
  | None => TfidfIndexer.doc_index self = []
  | Some m => m = map row_of (TfidfIndexer.doc_index self)
  end.

Lemma filter_tokens_all (docs : list Document.t) :
  Forall (fun d => Document.tokens d <> []) docs ->
  filter (fun d => truthy (Document.tokens d)) docs = docs.
Proof.
  induction 1 as [|d docs Hd _ IH]; simpl; [reflexivity|].
  destruct (Document.tokens d); [congruence|]. simpl. now rewrite IH.
Qed.

Lemma partial_fit_faithful (self : TfidfIndexer.t)
  (docs_chunk : list Document.t) :
  faithful self ->
  Forall (fun d => Document.tokens d <> []) docs_chunk ->
  faithful (TfidfIndexer.partial_fit self docs_chunk).
Proof.
  intros Hf Hall. unfold TfidfIndexer.partial_fit.
  rewrite (filter_tokens_all Hall).
  destruct docs_chunk as [|d ds]; [exact Hf|]. simpl negb. cbv iota.
  unfold faithful in *. simpl.
  unfold TfidfIndexer.transform, TfidfIndexer.vstack.
  rewrite map_map. fold row_of.
  destruct (TfidfIndexer.matrix self) as [m|].
  - subst m. now rewrite map_app.
  - now rewrite Hf.
Qed.

Lemma faithful_aligned (self : TfidfIndexer.t) :
  faithful self -> aligned self.
Proof.
  unfold faithful, aligned, TfidfIndexer.row_count.
  destruct (TfidfIndexer.matrix self) as [m|]; intros H.
  - subst m. apply length_map.
  - now rewrite H.
Qed.

Lemma fit_all_faithful (chunks : list (list Document.t)) :
  Forall (Forall (fun d => Document.tokens d <> [])) chunks ->
  faithful (TfidfIndexer.fit_all TfidfIndexer.init chunks).
Proof.
  unfold TfidfIndexer.fit_all.
  assert (H0 : faithful TfidfIndexer.init) by reflexivity.
  revert H0. generalize TfidfIndexer.init as self.
  induction chunks as [|c cs IH]; intros self Hf Hall; simpl; [exact Hf|].
  inversion Hall; subst. apply IH; [|assumption].
  now apply partial_fit_faithful.
Qed.

Lemma combine_map_r {A B} (f : A -> B) (l : list A) :
  combine l (map f l) = map (fun x => (x, f x)) l.
Proof. induction l as [|x l IH]; simpl; [reflexivity | now rewrite IH]. Qed.

Lemma faithful_scored_units (self : TfidfIndexer.t) (tokens : list str) :
  faithful self ->
  scored_units self tokens
    = map (fun d => (d, cosine_similarity
                          (hv_transform (join [space] tokens)) (row_of d)))
          (TfidfIndexer.doc_index self).
Proof.
  unfold faithful, scored_units.
  destruct (TfidfIndexer.matrix self) as [m|]; intros H.
  - subst m. rewrite map_map. apply combine_map_r.
  - now rewrite H.
Qed.

(** On a faithful index every reported score is the greatest
    similarity of the units of that path, and it is positive. *)
Lemma find_sources_best_similarity (self : SourceFinder.t)
  (query_text : str) (top_k : Z) (m : SourceMatch.t) :
  faithful (SourceFinder.indexer self) ->
  In m (SourceFinder.find_sources self query_text top_k) ->
  let similarity (d : Document.t) :=
    cosine_similarity
      (hv_transform (join [space] (query_tokens self query_text)))
      (row_of d) in
  (0 < SourceMatch.score m)%Q /\
  (exists d, In d (TfidfIndexer.doc_index (SourceFinder.indexer self)) /\
             Document.path d = SourceMatch.path m /\
             similarity d = SourceMatch.score m) /\
  (forall d, In d (TfidfIndexer.doc_index (SourceFinder.indexer self)) ->
             Document.path d = SourceMatch.path m ->
             (similarity d <= SourceMatch.score m)%Q).
Proof.
  intros Hf Hm similarity.
  destruct (find_sources_best_score _ _ _ _ Hm) as [Hpos [Hex Hmax]].
  rewrite (@faithful_scored_units _ (query_tokens self query_text) Hf)
    in Hex, Hmax.
  split; [exact Hpos|]. split.
  - destruct Hex as [u [Hu [Hp Hs]]].
    apply in_map_iff in Hu. destruct Hu as [d [Hd Hin]]. subst u.
    exists d. auto.
  - intros d Hd Hp.
    apply (Hmax (d, similarity d)); [|exact Hp].
    apply in_map_iff. exists d. auto.
Qed.

End FaithfulIndex.

(** * Further properties of the code *)

(** ** text_pipeline.py *)

Section PipelineFacts.
Context {R : Resources}.


(** X2: without a stemmer, [transform] returns the tokens of the
    normalized text that are not in the stopword set, in their order
    in the text; no token it returns is a stopword. *)
Theorem transform_without_stemmer (self : TextPipeline.t) (text : str) :
  TextPipeline._stemmer self = None ->
  TextPipeline.transform self text
    = filter (fun w => negb (is_stopword self w))
             (TextPipeline._tokenize (TextPipeline._normalize_text text)) /\
  forall w, In w (TextPipeline.transform self text) ->
    ~ In w (TextPipeline.stopword_set self).
Proof.
  intros Hst.
  assert (E : TextPipeline.transform self text
    = filter (fun w => negb (is_stopword self w))
             (TextPipeline._tokenize (TextPipeline._normalize_text text))).
  { unfold TextPipeline.transform, TextPipeline._stem_tokens.
    rewrite Hst. unfold TextPipeline._filter_stopwords, is_stopword.
    destruct (TextPipeline.stopword_set self) as [|s0 ss]; simpl.
    - symmetry. apply forallb_filter_id. apply forallb_forall.
      reflexivity.
    - reflexivity. }
  split; [exact E|].
  intros w Hw Hin. rewrite E in Hw. apply filter_In in Hw.
  destruct Hw as [_ Hw]. apply negb_true_iff in Hw.
  unfold is_stopword in Hw.
  assert (Ht : existsb (str_eqb w) (TextPipeline.stopword_set self) = true).
  { apply existsb_str_eqb_In. exact Hin. }
  congruence.
Qed.

(** X3: for a language other than [ru] and [en] neither stopwords nor
    stemming apply, whatever the two switches say: [transform] returns
    the tokens of the normalized text. *)
Theorem transform_unsupported_language (language : str)
  (use_stemming remove_stopwords : bool) (text : str) :
  language <> lit "ru" ->
  language <> lit "en" ->
  TextPipeline.transform
    (TextPipeline.init language use_stemming remove_stopwords) text
  = TextPipeline._tokenize (TextPipeline._normalize_text text).
Proof.
  intros Hru Hen.
  apply str_eqb_neq in Hru. apply str_eqb_neq in Hen.
  unfold TextPipeline.transform, TextPipeline.init,
    TextPipeline._filter_stopwords, TextPipeline._stem_tokens,
    TextPipeline._load_stopwords, TextPipeline._resolve_stemmer.
  simpl. rewrite Hru, Hen.
  destruct remove_stopwords, use_stemming; simpl;
    try reflexivity; apply map_id.
Qed.

End PipelineFacts.

Lemma transform_without_stemmer_witness :
  TextPipeline._stemmer
    (TextPipeline.init (R := sample_resources) (lit "en") false true)
    = None /\
  TextPipeline.transform (R := sample_resources)
    (TextPipeline.init (R := sample_resources) (lit "en") false true)
    (lit "The cats and the dogs")
  = [lit "cats"; lit "dogs"].
Proof.
  assert (H : TextPipeline._stemmer
    (TextPipeline.init (R := sample_resources) (lit "en") false true)
    = None) by reflexivity.
  split; [exact H|].
  destruct (@transform_without_stemmer sample_resources
              (TextPipeline.init (R := sample_resources) (lit "en")
                 false true)
              (lit "The cats and the dogs") H) as [E _].
  rewrite E. reflexivity.
Defined.

Lemma transform_unsupported_language_witness :
  lit "de" <> lit "ru" /\ lit "de" <> lit "en" /\
  TextPipeline.transform (R := sample_resources)
    (TextPipeline.init (R := sample_resources) (lit "de") true true)
    (lit "Die Katzen and the dogs")
  = [lit "die"; lit "katzen"; lit "and"; lit "the"; lit "dogs"].
Proof.
  assert (H1 : lit "de" <> lit "ru") by discriminate.
  assert (H2 : lit "de" <> lit "en") by discriminate.
  split; [exact H1|]. split; [exact H2|].
  rewrite (@transform_unsupported_language sample_resources (lit "de")
             true true (lit "Die Katzen and the dogs") H1 H2).
  reflexivity.
Defined.

(** Text in which every space stands before a word character or at
    the end, and every other code point is a word character. *)
Fixpoint tidy (s : str) : Prop :=
  match s with
  | [] => True
  | c :: rest =>
      (TextPipeline.is_word_char c = true \/
       (c = space /\
        match rest with
        | [] => True
        | d :: _ => TextPipeline.is_word_char d = true
        end)) /\
      tidy rest
  end.

Lemma sub_head_word (d : char) (s : str) :
  TextPipeline.is_word_char d = true ->
  exists t, TextPipeline.sub_non_alphanumeric (d :: s) = d :: t.
Proof. intros H. simpl. rewrite H. eexists. reflexivity. Qed.

Lemma sub_tidy (s : str) : tidy (TextPipeline.sub_non_alphanumeric s).
Proof.
  induction s as [|c s IH]; [exact I|].
  change (TextPipeline.sub_non_alphanumeric (c :: s))
    with (if TextPipeline.is_word_char c
          then c :: TextPipeline.sub_non_alphanumeric s
          else match s with
               | [] => [space]
               | d :: _ =>
                   if TextPipeline.is_word_char d
                   then space :: TextPipeline.sub_non_alphanumeric s
                   else TextPipeline.sub_non_alphanumeric s
               end).
  destruct (TextPipeline.is_word_char c) eqn:Ec.
  - simpl. auto.
  - destruct s as [|d s']; [simpl; auto|].
    destruct (TextPipeline.is_word_char d) eqn:Ed; [|exact IH].
    destruct (@sub_head_word d s' Ed) as [t Ht].
    rewrite Ht in *. simpl. split; [|exact IH].
    right. auto.
Qed.

Lemma tidy_fixed (s : str) :
  tidy s -> TextPipeline.sub_non_alphanumeric s = s.
Proof.
  induction s as [|c s IH]; [reflexivity|].
  intros [Hc Hs]. specialize (IH Hs).
  change (TextPipeline.sub_non_alphanumeric (c :: s))
    with (if TextPipeline.is_word_char c
          then c :: TextPipeline.sub_non_alphanumeric s
          else match s with
               | [] => [space]
               | d :: _ =>
                   if TextPipeline.is_word_char d
                   then space :: TextPipeline.sub_non_alphanumeric s
                   else TextPipeline.sub_non_alphanumeric s
               end).
  destruct Hc as [Hc | [Hc Hd]].
  - rewrite Hc, IH. reflexivity.
  - subst c. change (TextPipeline.is_word_char space) with false.
    cbv iota. destruct s as [|d s']; [reflexivity|].
    rewrite Hd, IH. reflexivity.
Qed.

Lemma tidy_no_double_space (s l1 l2 : str) :
  tidy s -> s <> l1 ++ space :: space :: l2.
Proof.
  revert s. induction l1 as [|x l1 IH]; intros s Hs E; subst s.
  - simpl in Hs. destruct Hs as [[H | [_ H]] _]; discriminate.
  - simpl in Hs. destruct Hs as [_ Hs]. now apply (IH _ Hs).
Qed.

(** X4: [_NON_ALPHANUMERIC_RE.sub(" ", s)] leaves only code points of
    the class and single spaces (never two spaces in a row), and a
    second substitution changes nothing. *)
Theorem sub_non_alphanumeric_tidy (s : str) :
  Forall (fun c => c = space \/ TextPipeline.is_word_char c = true)
         (TextPipeline.sub_non_alphanumeric s) /\
  (forall l1 l2,
     TextPipeline.sub_non_alphanumeric s <> l1 ++ space :: space :: l2) /\
  TextPipeline.sub_non_alphanumeric (TextPipeline.sub_non_alphanumeric s)
    = TextPipeline.sub_non_alphanumeric s.
Proof.
  split; [|split].
  - eapply Forall_impl; [|apply sub_chars]. simpl. tauto.
  - intros l1 l2. apply tidy_no_double_space, sub_tidy.
  - apply tidy_fixed, sub_tidy.
Qed.

Lemma sub_no_word (s : str) :
  Forall (fun c => TextPipeline.is_word_char c = false) s ->
  TextPipeline.sub_non_alphanumeric s = [] \/
  TextPipeline.sub_non_alphanumeric s = [space].
Proof.
  induction 1 as [|c s Hc Hs IH]; [now left|].
  simpl. rewrite Hc. destruct s as [|d s']; [now right|].
  inversion Hs as [|? ? Hd _]; subst. rewrite Hd. exact IH.
Qed.

(** X5: a text whose visible part holds no code point of the class
    (punctuation, whitespace, other scripts) normalizes to no token,
    in every configuration. *)
Theorem transform_no_word_chars {R : Resources} (self : TextPipeline.t)
  (text : str) :
  Forall (fun c => TextPipeline.is_word_char c = false)
         (lower (get_text text)) ->
  TextPipeline.transform self text = [].
Proof.
  intros H.
  assert (E : TextPipeline._tokenize (TextPipeline._normalize_text text)
              = []).
  { unfold TextPipeline._tokenize, TextPipeline._normalize_text.
    destruct (sub_no_word H) as [-> | ->]; reflexivity. }
  unfold TextPipeline.transform. rewrite E.
  unfold TextPipeline._filter_stopwords, TextPipeline._stem_tokens.
  destruct (negb _), (TextPipeline._stemmer self); reflexivity.
Qed.

Lemma transform_no_word_chars_witness :
  Forall (fun c => TextPipeline.is_word_char c = false)
         (lower (get_text (Resources := sample_resources)
                          (lit "?! ... <br> --"))) /\
  TextPipeline.transform (R := sample_resources) sample_pipeline
    (lit "?! ... <br> --") = [].
Proof.
  assert (H : Forall (fun c => TextPipeline.is_word_char c = false)
         (lower (get_text (Resources := sample_resources)
                          (lit "?! ... <br> --"))))
    by (vm_compute; repeat constructor).
  split; [exact H|].
  apply (@transform_no_word_chars sample_resources sample_pipeline
           (lit "?! ... <br> --") H).
Defined.

(** ** indexing.py *)

Section IndexFacts.
Context {V : Vectorizer}.

(** The rows of the matrix, none before the first batch. *)
Definition rows (self : TfidfIndexer.t) : list Vec :=
  match TfidfIndexer.matrix self with
  | None => []
  | Some m => m
  end.

Definition tokenful (d : Document.t) : bool := truthy (Document.tokens d).

Lemma partial_fit_step (self : TfidfIndexer.t)
  (docs_chunk : list Document.t) :
  (filter tokenful docs_chunk = [] /\
   TfidfIndexer.partial_fit self docs_chunk = self) \/
  (filter tokenful docs_chunk <> [] /\
   TfidfIndexer.doc_index (TfidfIndexer.partial_fit self docs_chunk)
     = TfidfIndexer.doc_index self ++ docs_chunk /\
   rows (TfidfIndexer.partial_fit self docs_chunk)
     = rows self ++ map row_of (filter tokenful docs_chunk)).
Proof.
  unfold TfidfIndexer.partial_fit. fold tokenful.
  destruct (filter tokenful docs_chunk) as [|d ds] eqn:E.
  - left. auto.
  - right. split; [discriminate|]. simpl negb. cbv iota.
    unfold rows, TfidfIndexer.transform, TfidfIndexer.vstack. simpl.
    split; [reflexivity|].
    rewrite map_map. fold row_of.
    destruct (TfidfIndexer.matrix self); reflexivity.
Qed.

(** X6: after any sequence of [partial_fit] calls on a fresh index
    the matrix has at most as many rows as [doc_index] has
    documents. *)
Theorem rows_never_exceed_documents (chunks : list (list Document.t)) :
  let idx := TfidfIndexer.fit_all TfidfIndexer.init chunks in
  TfidfIndexer.row_count idx <= length (TfidfIndexer.doc_index idx).
Proof.
  unfold TfidfIndexer.fit_all.
  assert (H0 : length (rows TfidfIndexer.init)
               <= length (TfidfIndexer.doc_index TfidfIndexer.init))
    by (simpl; lia).
  revert H0. generalize TfidfIndexer.init as self.
  induction chunks as [|c cs IH]; intros self H; simpl.
  - unfold TfidfIndexer.row_count, rows in *.
    destruct (TfidfIndexer.matrix self); exact H.
  - apply IH.
    destruct (partial_fit_step self c) as [[_ E] | [_ [Ed Er]]].
    + now rewrite E.
    + rewrite Ed, Er, !length_app, length_map.
      pose proof (filter_length_le tokenful c). lia.
Qed.

(** X7: [partial_fit] only appends: after any further batches the
    documents and the rows that were stored before are still there,
    first and in the same order. *)
Theorem fit_all_appends (self : TfidfIndexer.t)
  (chunks : list (list Document.t)) :
  exists new_docs new_rows,
    TfidfIndexer.doc_index (TfidfIndexer.fit_all self chunks)
      = TfidfIndexer.doc_index self ++ new_docs /\
    rows (TfidfIndexer.fit_all self chunks) = rows self ++ new_rows.
Proof.
  unfold TfidfIndexer.fit_all. revert self.
  induction chunks as [|c cs IH]; intros self; simpl.
  - exists [], []. now rewrite !app_nil_r.
  - destruct (IH (TfidfIndexer.partial_fit self c)) as [ds [rs [Hd Hr]]].
    destruct (partial_fit_step self c) as [[_ E] | [_ [Ed Er]]].
    + rewrite E in *. exists ds, rs. auto.
    + exists (c ++ ds), (map row_of (filter tokenful c) ++ rs).
      rewrite Hd, Hr, Ed, Er, !app_assoc. auto.
Qed.

Lemma filter_tokenful_all (docs : list Document.t) :
  Forall (fun d => Document.tokens d <> []) docs ->
  filter tokenful docs = docs.
Proof.
  induction 1 as [|d docs Hd _ IH]; simpl; [reflexivity|].
  unfold tokenful at 1. destruct (Document.tokens d); [congruence|].
  simpl. now rewrite IH.
Qed.

(** X8: when every document of every batch has tokens, the index
    built from a fresh one holds exactly the documents of the batches
    in order, and row [i] of the matrix is the vector of the tokens
    of [doc_index[i]]. *)
Theorem fit_all_with_tokens (chunks : list (list Document.t)) :
  Forall (Forall (fun d => Document.tokens d <> [])) chunks ->
  let idx := TfidfIndexer.fit_all TfidfIndexer.init chunks in
  TfidfIndexer.doc_index idx = concat chunks /\
  rows idx = map row_of (concat chunks) /\
  TfidfIndexer.row_count idx = length (TfidfIndexer.doc_index idx).
Proof.
  intros Hall idx.
  assert (H : TfidfIndexer.doc_index idx = concat chunks /\
              rows idx = map row_of (concat chunks)).
  { unfold idx, TfidfIndexer.fit_all.
    assert (G : forall self,
      TfidfIndexer.doc_index (fold_left TfidfIndexer.partial_fit chunks self)
        = TfidfIndexer.doc_index self ++ concat chunks /\
      rows (fold_left TfidfIndexer.partial_fit chunks self)
        = rows self ++ map row_of (concat chunks)).
    { induction Hall as [|c cs Hc _ IH]; intros self; simpl.
      - now rewrite !app_nil_r.
      - destruct (IH (TfidfIndexer.partial_fit self c)) as [Hd Hr].
        rewrite Hd, Hr, map_app.
        destruct (partial_fit_step self c) as [[E1 E] | [_ [Ed Er]]].
        + rewrite (filter_tokenful_all Hc) in E1. subst c.
          rewrite E. simpl. auto.
        + rewrite Ed, Er, (filter_tokenful_all Hc), !app_assoc. auto. }
    apply (G TfidfIndexer.init). }
  destruct H as [Hd Hr]. split; [exact Hd|]. split; [exact Hr|].
  unfold TfidfIndexer.row_count. unfold rows in Hr.
  destruct (TfidfIndexer.matrix idx) as [m|].
  - now rewrite Hr, Hd, length_map.
  - rewrite Hd. symmetry in Hr. apply map_eq_nil in Hr. now rewrite Hr.
Qed.

(** X9: for a bound [k >= 0], [query(tokens, k)] is the list of the
    first [k] entries of the full ranking [query(tokens, None)]. *)
Theorem query_top_k_prefix (self : TfidfIndexer.t) (tokens : list str)
  (k : Z) :
  (0 <= k)%Z ->
  TfidfIndexer.query self tokens (Some k)
    = firstn (Z.to_nat k) (TfidfIndexer.query self tokens None).
Proof.
  intros Hk. unfold TfidfIndexer.query.
  destruct (TfidfIndexer.matrix self) as [m|];
    [|now rewrite firstn_nil].
  destruct (negb (truthy (TfidfIndexer.doc_index self)));
    [now rewrite firstn_nil|].
  set (ranked := sorted_desc snd _).
  destruct (Z.of_nat (length ranked) <=? k)%Z eqn:E.
  - apply Z.leb_le in E. symmetry. apply firstn_all2. lia.
  - now apply slice_to_nonneg.
Qed.

(** X10: the full ranking is a rearrangement of
    [zip(doc_index, similarities)] in which the scores decrease and
    entries of equal score keep the order they have in the index. *)
Theorem query_full_ranking_sorted (self : TfidfIndexer.t)
  (tokens : list str) :
  let ranked := TfidfIndexer.query self tokens None in
  Permutation ranked (scored_units self tokens) /\
  descending snd ranked /\
  forall s : Q,
    filter (has_key snd s) ranked
      = filter (has_key snd s) (scored_units self tokens).
Proof.
  intros ranked. unfold ranked. rewrite query_full_ranking.
  split; [apply sorted_desc_perm|].
  split; [apply sorted_desc_descending|].
  intros s. apply sorted_desc_stable.
Qed.

End IndexFacts.

Lemma fit_all_with_tokens_witness :
  Forall (Forall (fun d => Document.tokens d <> []))
         [[sample_doc "a.txt" "cat mat"]; [sample_doc "b.txt" "cat"]] /\
  TfidfIndexer.doc_index
    (TfidfIndexer.fit_all (V := sample_vectorizer) TfidfIndexer.init
       [[sample_doc "a.txt" "cat mat"]; [sample_doc "b.txt" "cat"]])
  = [sample_doc "a.txt" "cat mat"; sample_doc "b.txt" "cat"].
Proof.
  assert (H : Forall (Forall (fun d => Document.tokens d <> []))
         [[sample_doc "a.txt" "cat mat"]; [sample_doc "b.txt" "cat"]])
    by (repeat constructor; discriminate).
  split; [exact H|].
  destruct (@fit_all_with_tokens sample_vectorizer _ H) as [E _].
  exact E.
Defined.

Lemma query_top_k_prefix_witness :
  (0 <= 2)%Z /\
  TfidfIndexer.query six_index [lit "two"] (Some 2%Z)
    = firstn (Z.to_nat 2) (TfidfIndexer.query six_index [lit "two"] None).
Proof.
  assert (Hk : (0 <= 2)%Z) by lia.
  split; [exact Hk|].
  apply (@query_top_k_prefix sample_vectorizer six_index [lit "two"] 2 Hk).
Defined.

(** ** source_finder.py *)

Section DictSetFacts.
Variable Val : Type.
Implicit Types (d : list (Path * Val)) (k : Path) (v : Val).

Lemma dict_set_keys_present d k v :
  In k (map fst d) -> map fst (dict_set d k v) = map fst d.
Proof.
  induction d as [|[k' v'] d IH]; simpl; [tauto|].
  intros H. destruct (str_eqb k' k) eqn:E; simpl; [reflexivity|].
  apply str_eqb_neq in E. f_equal. apply IH. tauto.
Qed.

Lemma dict_set_In_new d k v :
  In k (map fst d) -> In (k, v) (dict_set d k v).
Proof.
  induction d as [|[k' v'] d IH]; simpl; [tauto|].
  intros H. destruct (str_eqb k' k) eqn:E.
  - apply str_eqb_eq in E. subst. now left.
  - apply str_eqb_neq in E. right. apply IH. tauto.
Qed.

Lemma dict_set_In_inv d k v (e : Path * Val) :
  In e (dict_set d k v) -> e = (k, v) \/ (fst e <> k /\ In e d) \/
                             (fst e = k /\ In e d).
Proof.
  induction d as [|[k' v'] d IH]; simpl.
  - intros [H | []]. now left.
  - destruct (str_eqb k' k) eqn:E.
    + apply str_eqb_eq in E. subst k'. intros [H | H].
      * now left.
      * destruct (str_eq_dec (fst e) k); [right; right | right; left];
          auto.
    + apply str_eqb_neq in E. intros [H | H].
      * subst e. right. left. simpl. auto.
      * destruct (IH H) as [H1 | [[H1 H2] | [H1 H2]]]; auto.
Qed.

Lemma keys_unique d k v v' :
  NoDup (map fst d) -> In (k, v) d -> In (k, v') d -> v = v'.
Proof.
  induction d as [|[k0 v0] d IH]; simpl; [tauto|].
  intros Hnd H1 H2. inversion Hnd as [|? ? Hn Hnd']; subst.
  destruct H1 as [H1 | H1], H2 as [H2 | H2].
  - congruence.
  - injection H1 as -> ->. exfalso. apply Hn.
    change k with (fst (k, v')). now apply in_map.
  - injection H2 as -> ->. exfalso. apply Hn.
    change k with (fst (k, v)). now apply in_map.
  - now apply IH.
Qed.

End DictSetFacts.

Lemma NoDup_app_r_one {A} (l : list A) (a : A) :
  NoDup l -> ~ In a l -> NoDup (l ++ [a]).
Proof.
  induction 1 as [|x l Hx Hl IH]; intros Ha; simpl.
  - repeat constructor. intros [].
  - constructor.
    + intros H. apply in_app_or in H. destruct H as [H | [H | []]].
      * now apply Hx.
      * subst. apply Ha. now left.
    + apply IH. intros H. apply Ha. now right.
Qed.

(** What the loop of [_aggregate_best_scores] has established after
    the pairs [seen]. *)
Definition agg_inv (best : list (Path * Q)) (seen : list (Document.t * Q))
  : Prop :=
  NoDup (map fst best) /\
  (forall p v, In (p, v) best ->
     (0 < v)%Q /\
     (exists x, In x seen /\ unit_path x = p /\ snd x = v) /\
     (forall x, In x seen -> unit_path x = p -> (snd x <= v)%Q)) /\
  (forall x, In x seen -> (0 < snd x)%Q -> In (unit_path x) (map fst best)).

Lemma agg_inv_step (best : list (Path * Q)) (seen : list (Document.t * Q))
  (x : Document.t * Q) :
  agg_inv best seen -> agg_inv (agg_step best x) (seen ++ [x]).
Proof.
  intros [Hnd [Ha Hb]]. destruct x as [d s]. unfold agg_step.
  destruct (Qle_bool s 0) eqn:E0.
  - apply Qle_bool_iff in E0.
    split; [exact Hnd|]. split.
    + intros p v Hin. destruct (Ha p v Hin) as [Hv [[y [Hy Hyp]] Hmax]].
      split; [exact Hv|]. split.
      * exists y. split; [apply in_or_app; now left | exact Hyp].
      * intros z Hz Hzp. apply in_app_or in Hz.
        destruct Hz as [Hz | [Hz | []]]; [now apply Hmax|].
        subst z. simpl. eapply Qle_trans; [exact E0|].
        now apply Qlt_le_weak.
    + intros z Hz Hpos. apply in_app_or in Hz.
      destruct Hz as [Hz | [Hz | []]]; [now apply Hb|].
      subst z. simpl in Hpos. exfalso.
      apply (Qlt_irrefl 0). eapply Qlt_le_trans; eauto.
  - assert (Hs : (0 < s)%Q).
    { apply Qnot_le_lt. intros H. apply Qle_bool_iff in H. congruence. }
    set (p0 := Document.path d).
    unfold Qlt_bool.
    destruct (Qle_bool s (dict_get best p0 0%Q)) eqn:E1; simpl.
    + apply Qle_bool_iff in E1.
      assert (Hkey : In p0 (map fst best)).
      { destruct (in_dec str_eq_dec p0 (map fst best)) as [H | H];
          [exact H|].
        rewrite (@dict_get_absent Q best p0 0%Q H) in E1. exfalso.
        apply (Qlt_irrefl 0). eapply Qlt_le_trans; eauto. }
      pose proof (@dict_get_present Q best p0 0%Q Hkey) as Hin0.
      split; [exact Hnd|]. split.
      * intros p v Hin. destruct (Ha p v Hin) as [Hv [[y [Hy Hyp]] Hmax]].
        split; [exact Hv|]. split.
        -- exists y. split; [apply in_or_app; now left | exact Hyp].
        -- intros z Hz Hzp. apply in_app_or in Hz.
           destruct Hz as [Hz | [Hz | []]]; [now apply Hmax|].
           subst z. unfold unit_path in Hzp. simpl in *.
           fold p0 in Hzp. subst p.
           rewrite (@keys_unique Q best p0 v _ Hnd Hin Hin0). exact E1.
      * intros z Hz Hpos. apply in_app_or in Hz.
        destruct Hz as [Hz | [Hz | []]]; [now apply Hb|].
        subst z. exact Hkey.
    + assert (Hlt : (dict_get best p0 0 < s)%Q).
      { apply Qnot_le_lt. intros H. apply Qle_bool_iff in H. congruence. }
      destruct (in_dec str_eq_dec p0 (map fst best)) as [Hkey | Hkey].
      * pose proof (@dict_get_present Q best p0 0%Q Hkey) as Hin0.
        split; [now rewrite (@dict_set_keys_present Q best p0 s Hkey)|].
        split.
        -- intros p v Hin.
           destruct (@dict_set_In_inv Q best p0 s (p, v) Hin)
             as [H | [[Hne H] | [He H]]].
           ++ injection H as -> ->.
              split; [exact Hs|]. split.
              ** exists (d, s). split; [apply in_elt | auto].
              ** intros z Hz Hzp. apply in_app_or in Hz.
                 destruct Hz as [Hz | [Hz | []]].
                 --- destruct (Ha _ _ Hin0) as [_ [_ Hmax]].
                     eapply Qle_trans; [now apply Hmax|].
                     now apply Qlt_le_weak.
                 --- subst z. apply Qle_refl.
           ++ simpl in Hne.
              destruct (Ha p v H) as [Hv [[y [Hy Hyp]] Hmax]].
              split; [exact Hv|]. split.
              ** exists y. split; [apply in_or_app; now left | exact Hyp].
              ** intros z Hz Hzp. apply in_app_or in Hz.
                 destruct Hz as [Hz | [Hz | []]]; [now apply Hmax|].
                 subst z. unfold unit_path in Hzp. simpl in Hzp.
                 fold p0 in Hzp. congruence.
           ++ simpl in He. subst p.
              assert (Hnd' : NoDup (map fst (dict_set best p0 s)))
                by now rewrite (@dict_set_keys_present Q best p0 s Hkey).
              pose proof (@dict_set_In_new Q best p0 s Hkey) as Hnew.
              rewrite (@keys_unique Q _ p0 v s Hnd' Hin Hnew).
              split; [exact Hs|]. split.
              ** exists (d, s). split; [apply in_elt | auto].
              ** intros z Hz Hzp. apply in_app_or in Hz.
                 destruct Hz as [Hz | [Hz | []]].
                 --- destruct (Ha _ _ Hin0) as [_ [_ Hmax]].
                     eapply Qle_trans; [now apply Hmax|].
                     now apply Qlt_le_weak.
                 --- subst z. apply Qle_refl.
        -- rewrite (@dict_set_keys_present Q best p0 s Hkey).
           intros z Hz Hpos. apply in_app_or in Hz.
           destruct Hz as [Hz | [Hz | []]]; [now apply Hb|].
           subst z. exact Hkey.
      * rewrite (@dict_set_absent Q best p0 s Hkey).
        split; [|split].
        -- rewrite map_app. simpl. apply NoDup_app_r_one; assumption.
        -- intros p v Hin. apply in_app_or in Hin.
           destruct Hin as [Hin | [Hin | []]].
           ++ destruct (Ha p v Hin) as [Hv [[y [Hy Hyp]] Hmax]].
              split; [exact Hv|]. split.
              ** exists y. split; [apply in_or_app; now left | exact Hyp].
              ** intros z Hz Hzp. apply in_app_or in Hz.
                 destruct Hz as [Hz | [Hz | []]]; [now apply Hmax|].
                 subst z. unfold unit_path in Hzp. simpl in Hzp.
                 fold p0 in Hzp. exfalso. apply Hkey. subst p.
                 change p0 with (fst (p0, v)). now apply in_map.
           ++ injection Hin as <- <-.
              split; [exact Hs|]. split.
              ** exists (d, s). split; [apply in_elt | auto].
              ** intros z Hz Hzp. apply in_app_or in Hz.
                 destruct Hz as [Hz | [Hz | []]];
                   [|subst z; apply Qle_refl].
                 destruct (Qlt_le_dec 0 (snd z)) as [Hz0 | Hz0].
                 --- exfalso. apply Hkey. rewrite <- Hzp.
                     now apply Hb.
                 --- eapply Qle_trans; [exact Hz0|].
                     now apply Qlt_le_weak.
        -- rewrite map_app. intros z Hz Hpos. apply in_or_app.
           apply in_app_or in Hz.
           destruct Hz as [Hz | [Hz | []]]; [left; now apply Hb|].
           subst z. right. now left.
Qed.

(** X11: for any sequence of scored documents, in any order,
    [_aggregate_best_scores] returns one entry per path; the value of
    a path is positive, is the score of one of its documents and is
    the greatest score of its documents; and every path that has a
    document of positive score has an entry. *)
Theorem aggregate_best_scores_spec (scored : list (Document.t * Q)) :
  let best := SourceFinder._aggregate_best_scores scored in
  NoDup (map fst best) /\
  (forall p v, In (p, v) best ->
     (0 < v)%Q /\
     (exists x, In x scored /\ unit_path x = p /\ snd x = v) /\
     (forall x, In x scored -> unit_path x = p -> (snd x <= v)%Q)) /\
  (forall x, In x scored -> (0 < snd x)%Q ->
     In (unit_path x) (map fst best)).
Proof.
  simpl. rewrite aggregate_fold.
  change (agg_inv (fold_left agg_step scored []) scored).
  induction scored as [|x l IH] using rev_ind.
  - split; [constructor|]. split; [intros p v []|intros x []].
  - rewrite fold_left_app. simpl. now apply agg_inv_step.
Qed.

Section FinderFacts.
Context {R : Resources} {V : Vectorizer} {F : FileSystem}.

Lemma scored_units_indexed (idx : TfidfIndexer.t) (tokens : list str)
  (u : Document.t * Q) :
  In u (scored_units idx tokens) -> In (fst u) (TfidfIndexer.doc_index idx).
Proof.
  unfold scored_units. destruct (TfidfIndexer.matrix idx); [|intros []].
  destruct u as [d s]. apply in_combine_l.
Qed.

(** X12: for every bound, the matches of [find_sources] have
    pairwise different paths and positive scores, and every matched
    path is the path of a document of the index. *)
Theorem find_sources_matches (self : SourceFinder.t) (query_text : str)
  (top_k : Z) :
  let result := SourceFinder.find_sources self query_text top_k in
  NoDup (map SourceMatch.path result) /\
  forall m, In m result ->
    (0 < SourceMatch.score m)%Q /\
    exists d,
      In d (TfidfIndexer.doc_index (SourceFinder.indexer self)) /\
      Document.path d = SourceMatch.path m.
Proof.
  split; [apply find_sources_paths_NoDup|].
  intros m Hm.
  destruct (find_sources_best_score _ _ _ _ Hm)
    as [Hpos [[u [Hu [Hp _]]] _]].
  split; [exact Hpos|].
  exists (fst u). split; [|exact Hp].
  eapply scored_units_indexed; eauto.
Qed.

(** X13: a smaller bound returns a prefix of what a larger bound
    returns: for [0 <= k <= k'], [find_sources(q, k)] is the list of
    the first [k] matches of [find_sources(q, k')]. *)
Theorem find_sources_prefix (self : SourceFinder.t) (query_text : str)
  (k k' : Z) :
  (0 <= k)%Z -> (k <= k')%Z ->
  SourceFinder.find_sources self query_text k
    = firstn (Z.to_nat k) (SourceFinder.find_sources self query_text k').
Proof.
  intros Hk Hkk'. rewrite !find_sources_ranking.
  destruct (negb _); [now rewrite firstn_nil|].
  rewrite !slice_to_nonneg by lia.
  rewrite firstn_map, firstn_firstn. do 2 f_equal. lia.
Qed.

Lemma build_index_as_fit_all (self : SourceFinder.t) :
  SourceFinder.build_index self
  = {| SourceFinder.loader := SourceFinder.loader self;
       SourceFinder.pipeline := SourceFinder.pipeline self;
       SourceFinder.indexer :=
         TfidfIndexer.fit_all (SourceFinder.indexer self)
           (map (map (SourceFinder._process_document self))
                (SourceFinder.loader self)) |}.
Proof.
  unfold SourceFinder.build_index, TfidfIndexer.fit_all.
  generalize (SourceFinder.loader self) at 1 3 as chunks.
  assert (G : forall chunks st,
    SourceFinder.loader st = SourceFinder.loader self ->
    SourceFinder.pipeline st = SourceFinder.pipeline self ->
    fold_left
      (fun (self0 : SourceFinder.t) docs_chunk =>
         {| SourceFinder.loader := SourceFinder.loader self0;
            SourceFinder.pipeline := SourceFinder.pipeline self0;
            SourceFinder.indexer :=
              TfidfIndexer.partial_fit (SourceFinder.indexer self0)
                (map (SourceFinder._process_document self0) docs_chunk) |})
      chunks st
    = {| SourceFinder.loader := SourceFinder.loader self;
         SourceFinder.pipeline := SourceFinder.pipeline self;
         SourceFinder.indexer :=
           fold_left TfidfIndexer.partial_fit
             (map (map (SourceFinder._process_document self)) chunks)
             (SourceFinder.indexer st) |}).
  { induction chunks as [|c cs IH]; intros st Hl Hp; simpl.
    - destruct st. simpl in *. now subst.
    - rewrite IH by (simpl; assumption). simpl.
      unfold SourceFinder._process_document. now rewrite Hp. }
  intros chunks. now apply G.
Qed.


End FinderFacts.

Lemma find_sources_prefix_witness :
  (0 <= 1)%Z /\ (1 <= 5)%Z /\
  SourceFinder.find_sources (R := sample_resources) built_finder
    (lit "cats") 1
  = firstn (Z.to_nat 1)
      (SourceFinder.find_sources (R := sample_resources) built_finder
         (lit "cats") 5).
Proof.
  assert (H1 : (0 <= 1)%Z) by lia.
  assert (H2 : (1 <= 5)%Z) by lia.
  split; [exact H1|]. split; [exact H2|].
  apply (@find_sources_prefix sample_resources sample_vectorizer
           built_finder (lit "cats") 1 5 H1 H2).
Defined.

Section ScanFacts.
Context {R : Resources} {V : Vectorizer} {F : FileSystem}.

(** The position of a unit that is not blank and shares a token with
    the query; nothing for another unit. *)
Definition unit_position (self : SourceFinder.t) (m : SourceMatch.t)
  (tokens : list str) (snippet_len : Z) (label : str) (iu : Z * str)
  : list SourcePosition.t :=
  let snippet := strip (snd iu) in
  if truthy snippet && SourceFinder._matches_query self snippet tokens
  then [SourcePosition.mk (SourceMatch.path m) (fst iu)
          (SourceFinder._truncate snippet snippet_len)
          (SourceMatch.score m) label]
  else [].

Lemma scan_units_firstn (self : SourceFinder.t) (m : SourceMatch.t)
  (tokens : list str) (cap snippet_len : Z) (label : str)
  (units : list (Z * str)) :
  forall positions,
    (Z.of_nat (length positions) <= cap)%Z ->
    SourceFinder.scan_units_loop self m tokens cap snippet_len label
      units positions
    = positions ++
      firstn (Z.to_nat cap - length positions)
        (flat_map (unit_position self m tokens snippet_len label) units).
Proof.
  induction units as [|[idx u] rest IH]; intros positions Hlen; simpl.
  - now rewrite firstn_nil, app_nil_r.
  - destruct (cap <=? Z.of_nat (length positions))%Z eqn:E.
    + apply Z.leb_le in E.
      replace (Z.to_nat cap - length positions) with 0 by lia.
      simpl. now rewrite app_nil_r.
    + apply Z.leb_gt in E. unfold unit_position at 1. simpl.
      destruct (truthy (strip u)); simpl; [|now apply IH].
      destruct (SourceFinder._matches_query self (strip u) tokens); simpl;
        [|now apply IH].
      rewrite IH by (rewrite length_app; simpl; lia).
      rewrite <- app_assoc, length_app. simpl.
      replace (Z.to_nat cap - length positions)
        with (S (Z.to_nat cap - (length positions + 1))) by lia.
      reflexivity.
Qed.

Lemma scan_units_from_empty (self : SourceFinder.t) (m : SourceMatch.t)
  (tokens : list str) (cap snippet_len : Z) (label : str)
  (units : list (Z * str)) :
  SourceFinder.scan_units_loop self m tokens cap snippet_len label units []
  = firstn (Z.to_nat cap)
      (flat_map (unit_position self m tokens snippet_len label) units).
Proof.
  destruct (Z.le_gt_cases 0 cap) as [H | H].
  - rewrite scan_units_firstn by (simpl; lia). simpl.
    now rewrite Nat.sub_0_r.
  - replace (Z.to_nat cap) with 0 by lia. simpl.
    destruct units as [|[idx u] rest]; [reflexivity|]. simpl.
    destruct (cap <=? 0)%Z eqn:E; [reflexivity|].
    apply Z.leb_gt in E. lia.
Qed.

(** X15: for a file that can be read, [_scan_text] returns the
    positions of the first [max_positions_per_file] lines that are
    not blank and share a token with the query, in the order of the
    lines (none when the cap is zero or negative); [_scan_docx] does
    the same with the paragraphs of the document; both raise when the
    file cannot be read. *)
Theorem scan_first_matching_units (self : SourceFinder.t)
  (m : SourceMatch.t) (tokens : list str)
  (max_positions_per_file snippet_len : Z) :
  SourceFinder._scan_text self m tokens max_positions_per_file snippet_len
  = option_map
      (fun content =>
         firstn (Z.to_nat max_positions_per_file)
           (flat_map (unit_position self m tokens snippet_len (lit "line"))
                     (enumerate 1 (splitlines content))))
      (read_text (SourceMatch.path m)) /\
  SourceFinder._scan_docx self m tokens max_positions_per_file snippet_len
  = option_map
      (fun paragraphs =>
         firstn (Z.to_nat max_positions_per_file)
           (flat_map
              (unit_position self m tokens snippet_len (lit "paragraph"))
              (enumerate 1 paragraphs)))
      (docx_paragraphs (SourceMatch.path m)).
Proof.
  split.
  - unfold SourceFinder._scan_text.
    destruct (read_text _); simpl; [|reflexivity].
    now rewrite scan_units_from_empty.
  - unfold SourceFinder._scan_docx.
    destruct (docx_paragraphs _); simpl; [|reflexivity].
    now rewrite scan_units_from_empty.
Qed.

Lemma enumerate_In {A} (xs : list A) :
  forall (start idx : Z) (x : A),
    In (idx, x) (enumerate start xs) ->
    (start <= idx)%Z /\ nth_error xs (Z.to_nat (idx - start)) = Some x.
Proof.
  induction xs as [|y xs IH]; intros start idx x; simpl; [tauto|].
  intros [H | H].
  - injection H as <- <-. split; [lia|].
    now replace (Z.to_nat (start - start)) with 0 by lia.
  - destruct (IH _ _ _ H) as [H1 H2]. split; [lia|].
    replace (Z.to_nat (idx - start)) with (S (Z.to_nat (idx - (start + 1))))
      by lia.
    exact H2.
Qed.

(** X16: every position that [_scan_text] reports points at a line of
    the file: its index is the 1-based number of a line whose trimmed
    text is not empty and shares a token with the query, its snippet
    is the truncation of that trimmed text, its label is [line], and
    it carries the path and the score of the match. *)
Theorem scan_text_positions (self : SourceFinder.t) (m : SourceMatch.t)
  (tokens : list str) (max_positions_per_file snippet_len : Z)
  (content : str) (positions : list SourcePosition.t)
  (p : SourcePosition.t) :
  read_text (SourceMatch.path m) = Some content ->
  SourceFinder._scan_text self m tokens max_positions_per_file snippet_len
    = Some positions ->
  In p positions ->
  exists line,
    (1 <= SourcePosition.index p)%Z /\
    nth_error (splitlines content)
              (Z.to_nat (SourcePosition.index p - 1)) = Some line /\
    strip line <> [] /\
    SourceFinder._matches_query self (strip line) tokens = true /\
    SourcePosition.snippet p
      = SourceFinder._truncate (strip line) snippet_len /\
    SourcePosition.label p = lit "line" /\
    SourcePosition.path p = SourceMatch.path m /\
    SourcePosition.score p = SourceMatch.score m.
Proof.
  intros Hread Hscan Hp.
  unfold SourceFinder._scan_text in Hscan. rewrite Hread in Hscan.
  rewrite scan_units_from_empty in Hscan. injection Hscan as <-.
  apply firstn_incl in Hp. apply in_flat_map in Hp.
  destruct Hp as [[idx line] [Hin Hp]].
  unfold unit_position in Hp. simpl in Hp.
  destruct (truthy (strip line)) eqn:T; simpl in Hp; [|destruct Hp].
  destruct (SourceFinder._matches_query self (strip line) tokens) eqn:M;
    [|destruct Hp].
  destruct Hp as [Hp | []]. subst p. simpl.
  destruct (enumerate_In _ _ _ _ Hin) as [H1 H2].
  exists line. repeat split; auto.
  intros E. rewrite E in T. discriminate.
Qed.

End ScanFacts.

(** X17: for every limit, negative ones included, [_truncate] returns
    either the text itself or a prefix of the text followed by the
    marker, and the result is at most three code points longer than
    the text. *)
Theorem truncate_any_limit (text : str) (limit : Z) :
  let result := SourceFinder._truncate text limit in
  length result <= length text + length ellipsis /\
  (result = text \/
   exists kept dropped,
     result = kept ++ ellipsis /\ text = kept ++ dropped).
Proof.
  unfold SourceFinder._truncate. cbv zeta.
  destruct (Z.of_nat (length text) <=? limit)%Z.
  - split; [apply Nat.le_add_r | now left].
  - assert (Hs : exists n, slice_to text limit = firstn n text).
    { unfold slice_to. destruct (limit <? 0)%Z; eexists; reflexivity. }
    destruct Hs as [n Hs]. rewrite Hs.
    destruct (rstrip_prefix (firstn n text)) as [r [Hr _]].
    split.
    + rewrite length_app.
      pose proof (rstrip_length (firstn n text)) as H.
      rewrite length_firstn in H. lia.
    + right. exists (rstrip (firstn n text)), (r ++ skipn n text).
      split; [reflexivity|].
      rewrite app_assoc, <- Hr. now rewrite firstn_skipn.
Qed.

(** ** loaders.py *)

Section ChunkLoopFacts.
Variable X : Type.
Variable text_of : X -> str.
Variable make : Z -> str -> Document.t.

(** The document of an item whose text is not empty. *)
Definition item_document (ix : Z * X) : list Document.t :=
  if truthy (text_of (snd ix)) then [make (fst ix) (text_of (snd ix))]
  else [].

Definition sized (bound : Z) (chunk : list Document.t) : Prop :=
  1 <= length chunk /\ (Z.of_nat (length chunk) <= bound)%Z.

Lemma chunk_loop_spec (self : ChunkedDocumentLoader.t)
  (items : list (Z * X)) :
  forall chunk yielded,
  exists more,
    ChunkedDocumentLoader.chunk_loop text_of make self items chunk yielded
      = yielded ++ more /\
    concat more = chunk ++ flat_map item_document items /\
    ((1 <= ChunkedDocumentLoader.chunk_size self)%Z ->
     (Z.of_nat (length chunk) < ChunkedDocumentLoader.chunk_size self)%Z ->
     Forall (sized (ChunkedDocumentLoader.chunk_size self)) more).
Proof.
  induction items as [|[idx item] rest IH]; intros chunk yielded; simpl.
  - destruct chunk as [|d ds]; simpl.
    + exists []. rewrite app_nil_r. repeat split; auto.
    + exists [d :: ds]. simpl. rewrite !app_nil_r.
      repeat split; auto. intros _ H.
      constructor; [|constructor]. unfold sized. simpl in *. lia.
  - unfold item_document at 1. simpl.
    destruct (truthy (text_of item)); simpl.
    2:{ apply IH. }
    destruct (ChunkedDocumentLoader.chunk_size self
              <=? Z.of_nat (length (chunk ++ [make idx (text_of item)])))%Z
      eqn:E.
    + destruct (IH [] (yielded ++ [chunk ++ [make idx (text_of item)]]))
        as [more [H1 [H2 H3]]].
      exists ((chunk ++ [make idx (text_of item)]) :: more).
      split; [now rewrite H1, <- app_assoc|]. split.
      * simpl. rewrite H2. simpl. now rewrite <- app_assoc.
      * intros Hcs Hlen. constructor; [|apply H3; simpl; lia].
        unfold sized. rewrite length_app. simpl. lia.
    + apply Z.leb_gt in E.
      destruct (IH (chunk ++ [make idx (text_of item)]) yielded)
        as [more [H1 [H2 H3]]].
      exists more. split; [exact H1|]. split.
      * rewrite H2, <- app_assoc. reflexivity.
      * intros Hcs _. now apply H3.
Qed.

Lemma chunk_loop_from_empty (self : ChunkedDocumentLoader.t)
  (items : list (Z * X)) :
  let chunks :=
    ChunkedDocumentLoader.chunk_loop text_of make self items [] [] in
  concat chunks = flat_map item_document items /\
  ((1 <= ChunkedDocumentLoader.chunk_size self)%Z ->
   Forall (sized (ChunkedDocumentLoader.chunk_size self)) chunks).
Proof.
  destruct (chunk_loop_spec self items [] []) as [more [H1 [H2 H3]]].
  simpl in *. rewrite H1. split; [exact H2|].
  intros Hcs. apply H3; [exact Hcs | simpl; lia].
Qed.

End ChunkLoopFacts.

Section LoaderFacts.
Context {F : FileSystem} {S : Storage}.

(** The document that [_load_txt] makes of a line. *)
Definition line_document (file_path : Path) (idx : Z) (text : str)
  : Document.t :=
  Document.mk file_path text [(lit "line_number", MInt idx)] [].

(** X18: [_load_txt] loses nothing and invents nothing: the chunks it
    yields, put end to end, are the documents of the lines whose
    trimmed text is not empty, in the order of the file, each with its
    trimmed text, its 1-based line number and no tokens; when the
    file cannot be read the handler raises. *)
Theorem load_txt_lossless (self : ChunkedDocumentLoader.t)
  (file_path : Path) :
  match read_text file_path with
  | None => ChunkedDocumentLoader._load_txt self file_path = None
  | Some content =>
      exists chunks,
        ChunkedDocumentLoader._load_txt self file_path = Some chunks /\
        concat chunks
        = flat_map (item_document strip (line_document file_path))
                   (enumerate 1 (file_lines content))
  end.
Proof.
  unfold ChunkedDocumentLoader._load_txt.
  destruct (read_text file_path) as [content|]; [|reflexivity].
  eexists. split; [reflexivity|].
  apply (chunk_loop_from_empty strip (line_document file_path)).
Qed.

Definition handler_facts (self : ChunkedDocumentLoader.t)
  (file_path : Path) (chunks : list (list Document.t)) : Prop :=
  Forall (sized (ChunkedDocumentLoader.chunk_size self)) chunks /\
  Forall (Forall (fun d => Document.path d = file_path /\
                           Document.tokens d = [])) chunks.

Lemma made_documents (X : Type) (text_of : X -> str)
  (make : Z -> str -> Document.t) (P : Document.t -> Prop)
  (self : ChunkedDocumentLoader.t) (items : list (Z * X)) :
  (forall idx text, P (make idx text)) ->
  Forall (Forall P)
    (ChunkedDocumentLoader.chunk_loop text_of make self items [] []).
Proof.
  intros Hmake.
  destruct (chunk_loop_from_empty text_of make self items) as [Hc _].
  apply Forall_forall. intros chunk Hchunk.
  apply Forall_forall. intros d Hd.
  assert (Hin : In d (flat_map (item_document text_of make) items)).
  { rewrite <- Hc. apply in_concat. exists chunk. auto. }
  apply in_flat_map in Hin. destruct Hin as [[idx item] [_ Hin]].
  unfold item_document in Hin. simpl in Hin.
  destruct (truthy (text_of item)); [|destruct Hin].
  destruct Hin as [<- | []]. apply Hmake.
Qed.

Lemma handler_for_cases (suffix : str)
  (h : ChunkedDocumentLoader.LoaderFn) :
  ChunkedDocumentLoader.handler_for suffix = Some h ->
  In suffix ChunkedDocumentLoader.SUPPORTED_SUFFIXES /\
  (h = ChunkedDocumentLoader._load_txt \/
   h = ChunkedDocumentLoader._load_docx \/
   h = ChunkedDocumentLoader._load_csv \/
   h = ChunkedDocumentLoader._load_html).
Proof.
  unfold ChunkedDocumentLoader.handler_for,
    ChunkedDocumentLoader._handlers,
    ChunkedDocumentLoader.SUPPORTED_SUFFIXES.
  simpl.
  repeat match goal with
    | |- context [str_eqb ?a suffix] =>
        let E := fresh "E" in
        destruct (str_eqb a suffix) eqn:E;
        [apply str_eqb_eq in E; subst suffix;
         intros H; injection H as <-; simpl; tauto|]
    end.
  discriminate.
Qed.

Lemma handler_chunks (self : ChunkedDocumentLoader.t) (suffix : str)
  (h : ChunkedDocumentLoader.LoaderFn) (file_path : Path)
  (chunks : list (list Document.t)) :
  (1 <= ChunkedDocumentLoader.chunk_size self)%Z ->
  ChunkedDocumentLoader.handler_for suffix = Some h ->
  h self file_path = Some chunks ->
  handler_facts self file_path chunks.
Proof.
  intros Hcs Hh Hrun.
  destruct (handler_for_cases _ Hh) as [_ [-> | [-> | [-> | ->]]]].
  - unfold ChunkedDocumentLoader._load_txt in Hrun.
    destruct (read_text file_path); [|discriminate].
    injection Hrun as <-. split.
    + now apply chunk_loop_from_empty.
    + apply made_documents. intros; simpl; auto.
  - unfold ChunkedDocumentLoader._load_docx in Hrun.
    destruct (docx_paragraphs file_path); [|discriminate].
    injection Hrun as <-. split.
    + now apply chunk_loop_from_empty.
    + apply made_documents. intros; simpl; auto.
  - unfold ChunkedDocumentLoader._load_csv in Hrun.
    destruct (read_text file_path); [|discriminate].
    injection Hrun as <-. split.
    + now apply chunk_loop_from_empty.
    + apply made_documents. intros; simpl; auto.
  - unfold ChunkedDocumentLoader._load_html in Hrun.
    destruct (read_text file_path); [|discriminate].
    injection Hrun as <-. split.
    + constructor; [|constructor]. unfold sized. simpl. lia.
    + repeat constructor.
Qed.

End LoaderFacts.

(** Runs of equal paths. *)
Definition runs (g : list (Path * nat)) : list Path :=
  flat_map (fun e => repeat (fst e) (snd e)) g.

Lemma drop_path_incl (p x : Path) (l : list Path) :
  In x (drop_path p l) -> In x l.
Proof.
  induction l as [|q l IH]; simpl; [tauto|].
  destruct (str_eqb q p); [intros H; right; auto | auto].
Qed.

Lemma drop_path_run (p : Path) (n : nat) (l : list Path) :
  drop_path p (repeat p n ++ l) = drop_path p l.
Proof.
  induction n as [|n IH]; simpl; [reflexivity|].
  now rewrite (proj2 (str_eqb_eq p p) eq_refl).
Qed.

Lemma contiguousb_run (p : Path) (n : nat) (l : list Path) :
  ~ In p l -> contiguousb l = true -> contiguousb (repeat p n ++ l) = true.
Proof.
  intros Hp Hl. induction n as [|n IH]; simpl; [exact Hl|].
  rewrite IH, andb_true_r. apply negb_true_iff.
  rewrite drop_path_run.
  destruct (existsb (str_eqb p) (drop_path p l)) eqn:E; [|reflexivity].
  apply existsb_str_eqb_In in E. apply drop_path_incl in E. tauto.
Qed.

Lemma runs_In (g : list (Path * nat)) (p : Path) :
  In p (runs g) -> In p (map fst g).
Proof.
  unfold runs. intros H. apply in_flat_map in H.
  destruct H as [e [He Hp]]. apply repeat_spec in Hp. subst p.
  now apply in_map.
Qed.

Lemma runs_contiguous (g : list (Path * nat)) :
  NoDup (map fst g) -> contiguousb (runs g) = true.
Proof.
  induction g as [|[p n] g IH]; simpl; intros Hnd; [reflexivity|].
  inversion Hnd as [|? ? Hp Hg]; subst.
  apply contiguousb_run; [|now apply IH].
  intros H. apply Hp. now apply runs_In.
Qed.

Lemma all_equal_repeat (p : Path) (l : list Path) :
  Forall (fun q => q = p) l -> l = repeat p (length l).
Proof.
  induction 1 as [|q l Hq _ IH]; simpl; [reflexivity|].
  now rewrite Hq, <- IH.
Qed.

Section LoadFacts.
Context {F : FileSystem} {S : Storage}.

Lemma load_paths_chunk (self : ChunkedDocumentLoader.t)
  (paths : list Path) (chunk : list Document.t) :
  In chunk (fst (ChunkedDocumentLoader.load_paths self paths)) ->
  exists file_path h chunks,
    In file_path paths /\
    ChunkedDocumentLoader.handler_for (lower (path_suffix file_path))
      = Some h /\
    h self file_path = Some chunks /\
    In chunk chunks.
Proof.
  induction paths as [|p rest IH]; simpl; [tauto|].
  destruct (ChunkedDocumentLoader.handler_for (lower (path_suffix p)))
    as [h|] eqn:Eh.
  - destruct (h self p) as [chunks|] eqn:Erun; [|intros []].
    destruct (ChunkedDocumentLoader.load_paths self rest) as [more o].
    simpl in *. intros H. apply in_app_or in H. destruct H as [H | H].
    + exists p, h, chunks. auto.
    + destruct (IH H) as [q [h' [cs [H1 H2]]]]. exists q, h', cs. auto.
  - intros H. destruct (IH H) as [q [h' [cs [H1 H2]]]].
    exists q, h', cs. auto.
Qed.

Definition listing (self : ChunkedDocumentLoader.t) : list Path :=
  if path_is_file (ChunkedDocumentLoader.root self)
  then [ChunkedDocumentLoader.root self]
  else rglob (ChunkedDocumentLoader.root self).

Lemma load_chunks_listing (self : ChunkedDocumentLoader.t) :
  fst (ChunkedDocumentLoader.load self) = [] \/
  fst (ChunkedDocumentLoader.load self)
    = fst (ChunkedDocumentLoader.load_paths self (listing self)).
Proof.
  unfold ChunkedDocumentLoader.load, listing.
  destruct (negb _); [now left | now right].
Qed.

(** X19: every chunk that [load] yields holds at least one document
    and at most [max(1, chunk_size)] documents, all of one file that
    the loader was given or found and whose suffix, in lower case, is
    a supported one; none of these documents has tokens yet. *)
Theorem load_chunks (root_path : Path) (chunk_size : Z)
  (chunk : list Document.t) :
  let self := ChunkedDocumentLoader.init root_path chunk_size in
  In chunk (fst (ChunkedDocumentLoader.load self)) ->
  1 <= length chunk /\
  (Z.of_nat (length chunk) <= Z.max 1 chunk_size)%Z /\
  exists file_path,
    In file_path (listing self) /\
    In (lower (path_suffix file_path))
       ChunkedDocumentLoader.SUPPORTED_SUFFIXES /\
    Forall (fun d => Document.path d = file_path /\
                     Document.tokens d = []) chunk.
Proof.
  intros self Hin.
  destruct (load_chunks_listing self) as [E | E]; rewrite E in Hin;
    [destruct Hin|].
  destruct (load_paths_chunk _ _ _ Hin) as [p [h [chunks [Hp [Hh [Hr Hc]]]]]].
  assert (Hcs : (1 <= ChunkedDocumentLoader.chunk_size self)%Z)
    by (simpl; lia).
  destruct (@handler_chunks _ _ self _ h p chunks Hcs Hh Hr)
    as [Hsz Hdocs].
  rewrite Forall_forall in Hsz, Hdocs.
  destruct (Hsz chunk Hc) as [H1 H2]. simpl in H2.
  split; [exact H1|]. split; [exact H2|].
  exists p. split; [exact Hp|].
  split; [apply (@handler_for_cases _ _ _ h Hh) | now apply Hdocs].
Qed.

Lemma fit_all_doc_index {V : Vectorizer} (self : TfidfIndexer.t)
  (chunks : list (list Document.t)) :
  TfidfIndexer.doc_index (TfidfIndexer.fit_all self chunks)
  = TfidfIndexer.doc_index self
    ++ concat (filter (fun c => truthy (filter tokenful c)) chunks).
Proof.
  unfold TfidfIndexer.fit_all. revert self.
  induction chunks as [|c cs IH]; intros self; simpl.
  - now rewrite app_nil_r.
  - rewrite IH.
    destruct (partial_fit_step self c) as [[E1 E] | [E1 [Ed _]]].
    + rewrite E, E1. reflexivity.
    + rewrite Ed. destruct (filter tokenful c); [congruence|].
      simpl. now rewrite <- app_assoc.
Qed.

(** X20: when the input path does not exist, the loader raises before
    it yields anything; [build_index] then leaves the index as it was
    created, and every query finds no source. *)
Theorem missing_path_nothing_indexed {R : Resources} {V : Vectorizer}
  (input_path : Path) (language : str)
  (use_stemming remove_stopwords : bool) (chunk_size : Z)
  (query_text : str) (top_k : Z) :
  path_exists input_path = false ->
  let loaded :=
    from_path input_path language use_stemming remove_stopwords
              chunk_size in
  ChunkedDocumentLoader.load
    (ChunkedDocumentLoader.init input_path chunk_size) = ([], Raised) /\
  snd loaded = Raised /\
  SourceFinder.indexer (SourceFinder.build_index (fst loaded))
    = TfidfIndexer.init /\
  SourceFinder.find_sources (SourceFinder.build_index (fst loaded))
    query_text top_k = [].
Proof.
  intros Hex loaded.
  assert (E : ChunkedDocumentLoader.load
                (ChunkedDocumentLoader.init input_path chunk_size)
              = ([], Raised)).
  { unfold ChunkedDocumentLoader.load. simpl. now rewrite Hex. }
  unfold loaded, from_path. rewrite E. simpl.
  repeat split; auto.
  unfold SourceFinder.find_sources, SourceFinder.build_index. simpl.
  destruct (negb _); [reflexivity|].
  now rewrite slice_to_nil.
Qed.

End LoadFacts.

Section LoadContiguity.
Context {R : Resources} {V : Vectorizer} {F : FileSystem} {S : Storage}.

Definition of_file (g : Path * list (list Document.t)) : Prop :=
  Forall (Forall (fun d => Document.path d = fst g)) (snd g).

(** The chunks of [load_paths], file by file. *)
Lemma load_paths_grouped (self : ChunkedDocumentLoader.t)
  (paths : list Path) :
  (1 <= ChunkedDocumentLoader.chunk_size self)%Z ->
  exists groups : list (Path * list (list Document.t)),
    map fst groups = paths /\
    fst (ChunkedDocumentLoader.load_paths self paths)
      = concat (map snd groups) /\
    Forall of_file groups.
Proof.
  intros Hcs. induction paths as [|p rest [groups [H1 [H2 H3]]]]; simpl.
  - exists []. repeat split; constructor.
  - destruct (ChunkedDocumentLoader.handler_for (lower (path_suffix p)))
      as [h|] eqn:Eh.
    + destruct (h self p) as [chunks|] eqn:Erun.
      * destruct (ChunkedDocumentLoader.load_paths self rest) as [more o].
        simpl in *. exists ((p, chunks) :: groups). simpl.
        rewrite H1, H2. repeat split; auto.
        constructor; [|exact H3].
        destruct (@handler_chunks _ _ self _ h p chunks Hcs Eh Erun)
          as [_ Hd].
        unfold of_file. simpl. eapply Forall_impl; [|exact Hd].
        intros c Hc. eapply Forall_impl; [|exact Hc]. simpl. tauto.
      * exists (map (fun q => (q, [])) (p :: rest)). simpl.
        rewrite map_map. simpl. rewrite map_id.
        split; [reflexivity|]. split.
        -- clear. induction rest; simpl; auto.
        -- constructor; [constructor|].
           apply Forall_forall. intros g Hg. apply in_map_iff in Hg.
           destruct Hg as [q [<- _]]. constructor.
    + exists ((p, []) :: groups). simpl. rewrite H1, H2.
      repeat split; auto. constructor; [constructor | exact H3].
Qed.

Lemma grouped_runs (f : Document.t -> Document.t)
  (keep : list Document.t -> bool)
  (groups : list (Path * list (list Document.t))) :
  (forall d, Document.path (f d) = Document.path d) ->
  Forall of_file groups ->
  exists g,
    map fst g = map fst groups /\
    map Document.path
        (concat (filter keep (map (map f) (concat (map snd groups)))))
      = runs g.
Proof.
  intros Hf. induction 1 as [|[p cs] gs Hg _ [g [H1 H2]]]; simpl.
  - exists []. auto.
  - set (L := concat (filter keep (map (map f) cs))).
    exists ((p, length L) :: g). simpl. rewrite H1.
    split; [reflexivity|].
    rewrite map_app, filter_app, concat_app, map_app, H2.
    fold L. f_equal.
    assert (Hall : Forall (fun q => q = p) (map Document.path L)).
    { apply Forall_forall. intros q Hq. apply in_map_iff in Hq.
      destruct Hq as [d [<- Hd]]. unfold L in Hd.
      apply in_concat in Hd. destruct Hd as [c [Hc Hd]].
      apply filter_In in Hc. destruct Hc as [Hc _].
      apply in_map_iff in Hc. destruct Hc as [c0 [<- Hc0]].
      apply in_map_iff in Hd. destruct Hd as [d0 [<- Hd0]].
      rewrite Hf. unfold of_file in Hg. simpl in Hg.
      rewrite Forall_forall in Hg. specialize (Hg c0 Hc0).
      rewrite Forall_forall in Hg. now apply Hg. }
    rewrite (all_equal_repeat Hall) at 1.
    now rewrite length_map.
Qed.

Lemma built_paths_runs (input_path : Path) (language : str)
  (use_stemming remove_stopwords : bool) (chunk_size : Z) :
  let loader := ChunkedDocumentLoader.init input_path chunk_size in
  let finder :=
    SourceFinder.build_index
      (fst (from_path input_path language use_stemming remove_stopwords
                      chunk_size)) in
  exists g,
    (g = [] \/ map fst g = listing loader) /\
    map Document.path
        (TfidfIndexer.doc_index (SourceFinder.indexer finder))
      = runs g.
Proof.
  intros loader finder. unfold finder, from_path. fold loader.
  destruct (ChunkedDocumentLoader.load loader) as [chunks outcome] eqn:E.
  rewrite build_index_as_fit_all. simpl.
  rewrite fit_all_doc_index. simpl.
  assert (Hch : chunks = fst (ChunkedDocumentLoader.load loader))
    by now rewrite E.
  destruct (load_chunks_listing loader) as [E0 | E0];
    rewrite E0 in Hch; subst chunks.
  - exists []. split; [now left | reflexivity].
  - destruct (load_paths_grouped loader (listing loader))
      as [groups [H1 [H2 H3]]]; [simpl; lia|].
    rewrite H2.
    destruct (grouped_runs
                (SourceFinder._process_document
                   {| SourceFinder.loader :=
                        fst (ChunkedDocumentLoader.load_paths loader
                               (listing loader));
                      SourceFinder.pipeline :=
                        TextPipeline.init language use_stemming
                                          remove_stopwords;
                      SourceFinder.indexer := TfidfIndexer.init |})
                (fun c => truthy (filter tokenful c)) (groups := groups))
      as [g [G1 G2]]; [reflexivity | exact H3 |].
    exists g. split; [right; now rewrite G1|].
    rewrite <- G2, H2. reflexivity.
Qed.

Lemma built_paths_contiguous (input_path : Path) (language : str)
  (use_stemming remove_stopwords : bool) (chunk_size : Z) :
  NoDup (rglob input_path) ->
  let finder :=
    SourceFinder.build_index
      (fst (from_path input_path language use_stemming remove_stopwords
                      chunk_size)) in
  contiguousb
    (map Document.path
         (TfidfIndexer.doc_index (SourceFinder.indexer finder))) = true.
Proof.
  intros Hnd finder.
  destruct (built_paths_runs input_path language use_stemming
              remove_stopwords chunk_size) as [g [Hg Hruns]].
  fold finder in Hruns. rewrite Hruns. apply runs_contiguous.
  destruct Hg as [-> | ->]; [constructor|].
  unfold listing. simpl.
  destruct (path_is_file input_path); [|exact Hnd].
  repeat constructor. intros [].
Qed.

(** X21: when the files found under the input path are pairwise
    different, the index that [build_index] builds from
    [SourceFinder.from_path] stores the units of every file
    contiguously: once the units of a path have ended, the path does
    not come back in [doc_index]. *)
Theorem built_index_contiguous (input_path : Path) (language : str)
  (use_stemming remove_stopwords : bool) (chunk_size : Z) :
  NoDup (rglob input_path) ->
  let finder :=
    SourceFinder.build_index
      (fst (from_path input_path language use_stemming remove_stopwords
                      chunk_size)) in
  contiguousb
    (map Document.path
         (TfidfIndexer.doc_index (SourceFinder.indexer finder))) = true.
Proof. apply built_paths_contiguous. Qed.

End LoadContiguity.

Section BuiltTies.
Context {R : Resources} {V : Vectorizer} {F : FileSystem} {S : Storage}.

(** On an index with contiguous paths, tied matches follow the order
    in which their paths entered the index. *)
Lemma ties_follow_path_order (self : SourceFinder.t) (query_text : str)
  (k : Z) (a b : SourceMatch.t) :
  (0 <= k)%Z ->
  contiguousb
    (map Document.path
         (TfidfIndexer.doc_index (SourceFinder.indexer self))) = true ->
  before a b (SourceFinder.find_sources self query_text k) ->
  (SourceMatch.score a == SourceMatch.score b)%Q ->
  precedes (fun d => Document.path d = SourceMatch.path a)
           (fun d => Document.path d = SourceMatch.path b)
           (TfidfIndexer.doc_index (SourceFinder.indexer self)).
Proof.
  intros Hk Hcont Hbef Htie.
  pose proof (before_result _ _ Hk Hbef) as Hbest.
  destruct (best_ranking_ties self query_text Hbest Htie)
    as [u1 [x [u2 [Hu [[Hxp Hxs] Hu1]]]]].
  simpl in Hxp, Hxs, Hu1.
  assert (Hneq : SourceMatch.path a <> SourceMatch.path b)
    by apply (before_keys_distinct (first_occ_keys_NoDup _) Hbest).
  destruct (find_sources_best_score _ _ _ _ (before_In_r Hbef))
    as [_ [[ub [Hub [Hubp Hubs]]] _]].
  rewrite Hu in Hub.
  apply in_app_or in Hub. destruct Hub as [Hub | [Hub | Hub]].
  { exfalso. rewrite Forall_forall in Hu1. apply (Hu1 ub Hub).
    split; [exact Hubp | rewrite Hubs; apply Qeq_refl]. }
  { exfalso. subst ub. congruence. }
  apply in_split in Hub. destruct Hub as [u2a [u2b Hu2]].
  assert (Hdi : exists rest,
             TfidfIndexer.doc_index (SourceFinder.indexer self)
             = map fst (scored_units (SourceFinder.indexer self)
                             (query_tokens self query_text))
                 ++ rest).
  { unfold scored_units. destruct (TfidfIndexer.matrix (SourceFinder.indexer self)).
    - apply combine_fst_prefix.
    - exists (TfidfIndexer.doc_index (SourceFinder.indexer self)). reflexivity. }
  destruct Hdi as [rest Hdi]. rewrite Hu in Hdi.
  exists (map fst u1), (fst x), (map fst u2 ++ rest).
  split; [|split; [exact Hxp|]].
  { rewrite Hdi, map_app, <- app_assoc. reflexivity. }
  apply Forall_forall. intros d Hd Hdb.
  apply in_map_iff in Hd. destruct Hd as [z [Hz Hzin]]. subst d.
  apply in_split in Hzin. destruct Hzin as [u1a [u1b Hu1ab]].
  apply Hneq. rewrite <- Hdb.
  rewrite Hdi, Hu1ab, Hu2 in Hcont.
  repeat (rewrite ?map_app in Hcont; simpl in Hcont;
          rewrite <- ?app_assoc in Hcont).
  unfold unit_path in Hubp, Hxp. rewrite Hubp, <- Hdb, Hxp in Hcont.
  apply contiguousb_no_return in Hcont. exact Hcont.
Qed.

(** X22: in a finder built by [SourceFinder.from_path] and
    [build_index] over pairwise different files, two matches of
    exactly equal score are ranked in the order in which their files
    entered the index: a unit of the match ranked first stands in
    [doc_index] before every unit of the other. *)
Theorem built_index_ties (input_path : Path) (language : str)
  (use_stemming remove_stopwords : bool) (chunk_size : Z)
  (query_text : str) (k : Z) (a b : SourceMatch.t) :
  NoDup (rglob input_path) ->
  (0 <= k)%Z ->
  let finder :=
    SourceFinder.build_index
      (fst (from_path input_path language use_stemming remove_stopwords
                      chunk_size)) in
  before a b (SourceFinder.find_sources finder query_text k) ->
  (SourceMatch.score a == SourceMatch.score b)%Q ->
  precedes (fun d => Document.path d = SourceMatch.path a)
           (fun d => Document.path d = SourceMatch.path b)
           (TfidfIndexer.doc_index (SourceFinder.indexer finder)).
Proof.
  intros Hnd Hk finder Hbef Htie.
  apply (ties_follow_path_order finder query_text Hk); auto.
  apply (built_paths_contiguous input_path language use_stemming
           remove_stopwords chunk_size Hnd).
Qed.

End BuiltTies.

(** ** A directory to load *)

Fixpoint split_on (sep : char) (s : str) : list str :=
  match s with
  | [] => [[]]
  | c :: rest =>
      if (c =? sep)%N then [] :: split_on sep rest
      else
        match split_on sep rest with
        | [] => [[c]]
        | w :: ws => (c :: w) :: ws
        end
  end.

(** Rows of comma-separated cells, without quoting. *)
Definition plain_csv_reader (lines : list str) : list (list str) :=
  map (fun l => split_on 44%N (filter (fun c => negb (c =? 10)%N) l)) lines.

Definition corpus_files : FileSystem :=
  {| read_text := fun p =>
       if str_eqb p (lit "corpus/a.txt")
       then Some (lit "The cat sat" ++ newline ++ lit "  " ++ newline ++
                  lit "Dogs bark" ++ newline)
       else if str_eqb p (lit "corpus/b.txt")
       then Some (lit "Dogs bark" ++ newline ++ lit "Birds sing" ++ newline)
       else if str_eqb p (lit "corpus/c.csv")
       then Some (lit "name,note" ++ newline ++ lit "cat, black" ++ newline ++
                  lit " , " ++ newline)
       else None;
     docx_paragraphs := fun _ => None |}.

Definition corpus_paths : list Path :=
  [lit "corpus/a.txt"; lit "corpus/b.txt"; lit "corpus/c.csv";
   lit "corpus/readme.md"].

Definition corpus_storage : Storage :=
  {| path_exists := fun p =>
       str_eqb p (lit "corpus") || existsb (str_eqb p) corpus_paths;
     path_is_file := fun p => existsb (str_eqb p) corpus_paths;
     rglob := fun p => if str_eqb p (lit "corpus") then corpus_paths else [];
     csv_reader := plain_csv_reader |}.

Definition corpus_finder : SourceFinder.t (V := sample_vectorizer) :=
  SourceFinder.build_index (R := sample_resources)
    (fst (from_path (R := sample_resources) (F := corpus_files)
            (S := corpus_storage) (lit "corpus") (lit "en") true true 2)).

Lemma corpus_paths_NoDup : NoDup (rglob (Storage := corpus_storage)
                                        (lit "corpus")).
Proof.
  change (NoDup corpus_paths). unfold corpus_paths.
  repeat constructor; simpl; intuition discriminate.
Qed.

Lemma scan_text_positions_witness :
  let m := SourceMatch.mk (lit "corpus/a.txt") 1%Q in
  let content :=
    lit "The cat sat" ++ newline ++ lit "  " ++ newline ++
    lit "Dogs bark" ++ newline in
  let p := SourcePosition.mk (lit "corpus/a.txt") 3 (lit "Dogs bark")
             1%Q (lit "line") in
  read_text (FileSystem := corpus_files) (SourceMatch.path m)
    = Some content /\
  In p [p] /\
  exists line,
    nth_error (splitlines content)
              (Z.to_nat (SourcePosition.index p - 1)) = Some line /\
    SourcePosition.snippet p
      = SourceFinder._truncate (strip line) 200.
Proof.
  intros m content p.
  assert (H1 : read_text (FileSystem := corpus_files) (SourceMatch.path m)
               = Some content) by reflexivity.
  assert (H2 : SourceFinder._scan_text (R := sample_resources)
                 (F := corpus_files) corpus_finder m [lit "dog"] 2 200
               = Some [p]) by reflexivity.
  assert (H3 : In p [p]) by (left; reflexivity).
  split; [exact H1|]. split; [exact H3|].
  destruct (@scan_text_positions sample_resources sample_vectorizer
              corpus_files corpus_finder m [lit "dog"] 2 200 content [p] p
              H1 H2 H3) as [line [_ [Hn [_ [_ [Hs _]]]]]].
  exists line. split; [exact Hn | exact Hs].
Defined.

Lemma load_chunks_witness :
  let chunk :=
    [line_document (lit "corpus/b.txt") 1 (lit "Dogs bark");
     line_document (lit "corpus/b.txt") 2 (lit "Birds sing")] in
  In chunk
     (fst (ChunkedDocumentLoader.load (F := corpus_files)
             (S := corpus_storage)
             (ChunkedDocumentLoader.init (lit "corpus") 2))) /\
  1 <= length chunk /\
  (Z.of_nat (length chunk) <= Z.max 1 2)%Z.
Proof.
  intros chunk.
  assert (H : In chunk
     (fst (ChunkedDocumentLoader.load (F := corpus_files)
             (S := corpus_storage)
             (ChunkedDocumentLoader.init (lit "corpus") 2))))
    by (right; left; reflexivity).
  split; [exact H|].
  destruct (@load_chunks corpus_files corpus_storage (lit "corpus") 2
              chunk H) as [H1 [H2 _]].
  split; [exact H1 | exact H2].
Defined.

Lemma missing_path_nothing_indexed_witness :
  path_exists (Storage := corpus_storage) (lit "nowhere") = false /\
  SourceFinder.find_sources (R := sample_resources)
    (V := sample_vectorizer)
    (SourceFinder.build_index (R := sample_resources)
       (fst (from_path (R := sample_resources) (F := corpus_files)
               (S := corpus_storage) (lit "nowhere") (lit "en")
               true true 2)))
    (lit "dogs") 5 = [].
Proof.
  assert (H : path_exists (Storage := corpus_storage) (lit "nowhere")
              = false) by reflexivity.
  split; [exact H|].
  apply (@missing_path_nothing_indexed corpus_files corpus_storage
           sample_resources sample_vectorizer (lit "nowhere") (lit "en")
           true true 2 (lit "dogs") 5 H).
Defined.

Lemma built_index_contiguous_witness :
  NoDup (rglob (Storage := corpus_storage) (lit "corpus")) /\
  contiguousb
    (map Document.path
         (TfidfIndexer.doc_index (SourceFinder.indexer corpus_finder)))
  = true.
Proof.
  split; [exact corpus_paths_NoDup|].
  apply (@built_index_contiguous sample_resources sample_vectorizer
           corpus_files corpus_storage (lit "corpus") (lit "en") true true
           2 corpus_paths_NoDup).
Defined.

Lemma built_index_ties_witness :
  let a := SourceMatch.mk (lit "corpus/a.txt") (4 # 4) in
  let b := SourceMatch.mk (lit "corpus/b.txt") (4 # 4) in
  NoDup (rglob (Storage := corpus_storage) (lit "corpus")) /\
  (0 <= 5)%Z /\
  before a b
    (SourceFinder.find_sources (R := sample_resources) corpus_finder
       (lit "dogs bark") 5) /\
  (SourceMatch.score a == SourceMatch.score b)%Q /\
  precedes (fun d => Document.path d = SourceMatch.path a)
           (fun d => Document.path d = SourceMatch.path b)
           (TfidfIndexer.doc_index (SourceFinder.indexer corpus_finder)).
Proof.
  intros a b.
  assert (Hk : (0 <= 5)%Z) by lia.
  assert (Hbef : before a b
    (SourceFinder.find_sources (R := sample_resources) corpus_finder
       (lit "dogs bark") 5))
    by (exists [], [], []; reflexivity).
  assert (Htie : (SourceMatch.score a == SourceMatch.score b)%Q)
    by reflexivity.
  split; [exact corpus_paths_NoDup|]. split; [exact Hk|].
  split; [exact Hbef|]. split; [exact Htie|].
  apply (@built_index_ties sample_resources sample_vectorizer corpus_files
           corpus_storage (lit "corpus") (lit "en") true true 2
           (lit "dogs bark") 5 a b corpus_paths_NoDup Hk Hbef Htie).
Defined.


Section CsvFacts.
Context {F : FileSystem} {S : Storage}.

(** The document that [_load_csv] makes of a row. *)
Definition row_document (file_path : Path) (header : MetaValue)
  (idx : Z) (text : str) : Document.t :=
  Document.mk file_path text
    [(lit "csv_row", MInt idx); (lit "header", header)] [].

(** X23: [_load_csv] never turns the first row into a document: the
    chunks it yields, put end to end, are the documents of the rows
    after the first that have a non-blank cell, numbered from 2, each
    with the text of its non-blank cells and the first row as its
    header. *)
Theorem load_csv_lossless (self : ChunkedDocumentLoader.t)
  (file_path : Path) :
  match read_text file_path with
  | None => ChunkedDocumentLoader._load_csv self file_path = None
  | Some content =>
      exists chunks,
        ChunkedDocumentLoader._load_csv self file_path = Some chunks /\
        match csv_reader (file_lines content) with
        | [] => chunks = []
        | header :: data =>
            concat chunks
            = flat_map
                (item_document ChunkedDocumentLoader.row_text
                   (row_document file_path (MList header)))
                (enumerate 2 data)
        end
  end.
Proof.
  unfold ChunkedDocumentLoader._load_csv.
  destruct (read_text file_path) as [content|]; [|reflexivity].
  eexists. split; [reflexivity|].
  destruct (csv_reader (file_lines content)) as [|header data].
  - reflexivity.
  - apply (chunk_loop_from_empty ChunkedDocumentLoader.row_text
             (row_document file_path (MList header))).
Qed.

End CsvFacts.

(** ** Line numbers of the loader and of the locator *)

Lemma lstrip_app (b t : str) :
  lstrip (b ++ t) = match lstrip b with
                    | [] => lstrip t
                    | _ :: _ => lstrip b ++ t
                    end.
Proof.
  induction b as [|c b IH]; simpl; [now destruct (lstrip t)|].
  destruct (isspace c); [exact IH | reflexivity].
Qed.

Lemma rstrip_line_feed (l : str) : rstrip (l ++ [10%N]) = rstrip l.
Proof.
  unfold rstrip. rewrite rev_app_distr. reflexivity.
Qed.

Lemma strip_line_feed (l : str) : strip (l ++ [10%N]) = strip l.
Proof.
  unfold strip. rewrite lstrip_app.
  destruct (lstrip l) as [|c r] eqn:E.
  - reflexivity.
  - apply rstrip_line_feed.
Qed.

Definition only_line_feeds (s : str) : Prop :=
  Forall (fun c => is_linebreak c = true -> c = 10%N) s.

Lemma file_lines_splitlines (s : str) :
  only_line_feeds s ->
  Forall2 (fun a b => a = b \/ a = b ++ [10%N])
          (file_lines s) (splitlines s).
Proof.
  induction 1 as [|c s Hc Hs IH]; simpl; [constructor|].
  destruct (N.eqb_spec c 10) as [E | E].
  - subst c. simpl.
    destruct s as [|d s']; simpl.
    + constructor; [now right | constructor].
    + constructor; [now right | exact IH].
  - destruct (is_linebreak c) eqn:Eb; [now specialize (Hc eq_refl)|].
    inversion IH as [|a b la lb Hab Hrest Ea Eb']; subst.
    + constructor; [now left | constructor].
    + constructor; [|exact Hrest].
      destruct Hab as [-> | ->]; [now left | now right].
Qed.

(** X24: in a text whose only line boundary is the line feed, the
    lines that the loader numbers (iteration over the file) and the
    lines that the locator numbers ([splitlines]) are the same after
    trimming, one by one: the [line_number] of a document and the
    [index] of a position count the same lines. *)
Theorem line_numbers_agree (content : str) :
  only_line_feeds content ->
  map strip (file_lines content) = map strip (splitlines content).
Proof.
  intros H. apply file_lines_splitlines in H.
  induction H as [|a b la lb Hab _ IH]; simpl; [reflexivity|].
  rewrite IH. f_equal.
  destruct Hab as [-> | ->]; [reflexivity | apply strip_line_feed].
Qed.

Lemma line_numbers_agree_witness :
  only_line_feeds (lit "The cat sat" ++ newline ++ lit "  " ++ newline ++
                   lit "Dogs bark" ++ newline) /\
  map strip (file_lines (lit "The cat sat" ++ newline ++ lit "  " ++
                         newline ++ lit "Dogs bark" ++ newline))
  = [lit "The cat sat"; []; lit "Dogs bark"].
Proof.
  assert (H : only_line_feeds
                (lit "The cat sat" ++ newline ++ lit "  " ++ newline ++
                 lit "Dogs bark" ++ newline)).
  { vm_compute. repeat constructor; intros E; try reflexivity;
      discriminate. }
  split; [exact H|].
  rewrite (line_numbers_agree H). reflexivity.
Defined.

(** ** Chunks of one unit *)

Section UnitChunks.
Context {R : Resources} {V : Vectorizer} {F : FileSystem} {S : Storage}.

Lemma load_chunk_sized (self : ChunkedDocumentLoader.t)
  (chunk : list Document.t) :
  (1 <= ChunkedDocumentLoader.chunk_size self)%Z ->
  In chunk (fst (ChunkedDocumentLoader.load self)) ->
  sized (ChunkedDocumentLoader.chunk_size self) chunk.
Proof.
  intros Hcs Hin.
  destruct (load_chunks_listing self) as [E | E]; rewrite E in Hin;
    [destruct Hin|].
  destruct (load_paths_chunk _ _ _ Hin) as [p [h [chunks [Hp [Hh [Hr Hc]]]]]].
  destruct (@handler_chunks _ _ self _ h p chunks Hcs Hh Hr) as [Hsz _].
  rewrite Forall_forall in Hsz. now apply Hsz.
Qed.

(** A batch of at most one document is stored whole or not at all. *)
Lemma partial_fit_unit_chunk (self : TfidfIndexer.t)
  (docs_chunk : list Document.t) :
  length docs_chunk <= 1 ->
  TfidfIndexer.partial_fit self docs_chunk = self \/
  Forall (fun d => Document.tokens d <> []) docs_chunk.
Proof.
  intros Hlen. destruct docs_chunk as [|d [|d' ds]]; simpl in Hlen;
    [left; reflexivity | | lia].
  destruct (Document.tokens d) as [|w ws] eqn:E.
  - left. unfold TfidfIndexer.partial_fit. simpl. now rewrite E.
  - right. constructor; [congruence | constructor].
Qed.

Lemma fit_all_unit_chunks (chunks : list (list Document.t)) :
  forall self : TfidfIndexer.t,
  Forall (fun c => length c <= 1) chunks ->
  faithful self ->
  Forall (fun d => Document.tokens d <> []) (TfidfIndexer.doc_index self) ->
  faithful (TfidfIndexer.fit_all self chunks) /\
  Forall (fun d => Document.tokens d <> [])
         (TfidfIndexer.doc_index (TfidfIndexer.fit_all self chunks)).
Proof.
  unfold TfidfIndexer.fit_all.
  induction chunks as [|c cs IH]; intros self Hsz Hf Hd; simpl;
    [now split|].
  inversion Hsz as [|? ? Hc Hcs]; subst.
  destruct (partial_fit_unit_chunk self c Hc) as [E | Hall].
  - rewrite E. now apply IH.
  - apply IH; [exact Hcs | now apply partial_fit_faithful |].
    destruct (partial_fit_step self c) as [[_ E] | [_ [Ed _]]].
    + now rewrite E.
    + rewrite Ed. apply Forall_app. now split.
Qed.

(** X25: with a chunk size of one or less every chunk of the loader
    holds one unit, so [partial_fit] stores a unit with its row or
    skips it: the index that [build_index] builds from
    [SourceFinder.from_path] has one row per document, row [i] is the
    vector of the tokens of [doc_index[i]], and no document without
    tokens is stored. *)
Theorem unit_chunks_index_aligned (input_path : Path) (language : str)
  (use_stemming remove_stopwords : bool) (chunk_size : Z) :
  (chunk_size <= 1)%Z ->
  let idx :=
    SourceFinder.indexer
      (SourceFinder.build_index
         (fst (from_path input_path language use_stemming remove_stopwords
                         chunk_size))) in
  TfidfIndexer.row_count idx = length (TfidfIndexer.doc_index idx) /\
  rows idx = map row_of (TfidfIndexer.doc_index idx) /\
  Forall (fun d => Document.tokens d <> []) (TfidfIndexer.doc_index idx).
Proof.
  intros Hcs idx. unfold idx, from_path.
  set (loader := ChunkedDocumentLoader.init input_path chunk_size).
  assert (Hsz : Forall (fun c : list Document.t => length c <= 1)
                  (fst (ChunkedDocumentLoader.load loader))).
  { apply Forall_forall. intros c Hc.
    assert (H1 : (1 <= ChunkedDocumentLoader.chunk_size loader)%Z)
      by (simpl; lia).
    destruct (load_chunk_sized loader c H1 Hc) as [_ H]. simpl in H. lia. }
  destruct (ChunkedDocumentLoader.load loader) as [chunks outcome].
  simpl in Hsz. rewrite build_index_as_fit_all. simpl.
  match goal with
  | |- context [TfidfIndexer.fit_all _ (map (map ?f) chunks)] =>
      assert (Hp : Forall (fun c : list Document.t => length c <= 1)
                     (map (map f) chunks))
  end.
  { apply Forall_forall. intros c Hc. apply in_map_iff in Hc.
    destruct Hc as [c0 [<- Hc0]]. rewrite length_map.
    rewrite Forall_forall in Hsz. now apply Hsz. }
  destruct (@fit_all_unit_chunks _ TfidfIndexer.init Hp)
    as [Hf Hd]; [reflexivity | constructor |].
  split; [now apply faithful_aligned|]. split; [|exact Hd].
  unfold faithful in Hf. unfold rows.
  destruct (TfidfIndexer.matrix _); [exact Hf | now rewrite Hf].
Qed.

End UnitChunks.

Lemma unit_chunks_index_aligned_witness :
  (1 <= 1)%Z /\
  TfidfIndexer.row_count
    (SourceFinder.indexer
       (SourceFinder.build_index (R := sample_resources)
          (V := sample_vectorizer)
          (fst (from_path (R := sample_resources) (F := corpus_files)
                  (S := corpus_storage) (lit "corpus") (lit "en") true
                  true 1)))) = 5.
Proof.
  assert (H : (1 <= 1)%Z) by lia.
  split; [exact H|].
  destruct (@unit_chunks_index_aligned sample_resources sample_vectorizer
              corpus_files corpus_storage (lit "corpus") (lit "en") true
              true 1 H) as [E _].
  rewrite E. reflexivity.
Defined.

(** * Scores in binary64 *)

(** A stand-in for the hash of the tokens. *)
Definition sample_hash : FeatureHash :=
  {| feature_index := fun token =>
       fold_left (fun h c => (h * 31 + c) mod 1048576)%N token 0%N |}.

(** The index of one unit with two tokens. *)
Definition twin_index : TfidfIndexer.t (V := binary64_vectorizer sample_hash) :=
  TfidfIndexer.partial_fit TfidfIndexer.init [sample_doc "a.txt" "dogs bark"].

Section Binary64Scores.
Context {H : FeatureHash}.

(** Every score that [query] returns is the similarity of the query
    vector and a row of the matrix. *)
Lemma query_score_row (V : Vectorizer) (self : TfidfIndexer.t)
  (tokens : list str) (top_k : option Z) (u : Document.t * Q) :
  In u (TfidfIndexer.query self tokens top_k) ->
  exists row,
    In row (rows self) /\
    snd u = cosine_similarity (hv_transform (join [space] tokens)) row.
Proof.
  unfold TfidfIndexer.query, rows.
  destruct (TfidfIndexer.matrix self) as [m|]; [|intros []].
  destruct (negb _); [intros []|].
  intros Hin.
  assert (Hs : In u (sorted_desc snd
                 (combine (TfidfIndexer.doc_index self)
                    (map (cosine_similarity
                            (hv_transform (join [space] tokens))) m)))).
  { destruct top_k as [k|]; [|exact Hin].
    destruct (Z.of_nat _ <=? k)%Z; [exact Hin|].
    now apply slice_to_In in Hin. }
  apply sorted_desc_In in Hs. destruct u as [d score].
  apply in_combine_r in Hs. apply in_map_iff in Hs.
  destruct Hs as [row [E Hrow]]. exists row. simpl. now split.
Qed.

Lemma hashing_transform_no_tokens (text : str) :
  split text = [] -> Sklearn.hashing_transform text = [].
Proof.
  intros E. unfold Sklearn.hashing_transform, Sklearn.term_counts.
  rewrite E. reflexivity.
Qed.

Lemma cosine_similarity_zero_query (y : Sklearn.Row) :
  Sklearn.cosine_similarity [] y = Binary64.zero.
Proof. reflexivity. Qed.

End Binary64Scores.



